(** * SpectraFog: the HLK-LD2450 frame synchronizer, decoder and trail recorder

    A shallow embedding of [mmwave_with_webserver.ino]: the byte intake
    buffer ([pushBytes]), the frame synchronizer and decoder ([parseFrames]),
    the trail recorder ([sampleTrails]) and the trail snapshot that [page]
    hands to the canvas script.

    Conventions.
    - C integers are [Z]; every narrowing or unsigned conversion of the
      source is written out ([to_uint8], [to_uint16], [to_int16],
      [to_int32], [to_uint32]).  [unsigned long] and [int] are 32 bits wide
      on the ESP32.
    - C arrays are lists of their declared length, read with [byte_at] /
      [cell_at] and written with stdpp's [<[ i := v ]>].
    - [Serial1] is the list of bytes waiting in the receive queue.
    - [millis()] is an oracle [millis_at : nat -> Z] indexed by the number of
      calls made so far, which the state counts in [ticks]. *)

From stdpp Require Import base numbers list strings.

Local Open Scope Z_scope.

(** ** Fixed-width integer conversions *)

Definition to_uint8 (z : Z) : Z := z mod 256.
Definition to_uint16 (z : Z) : Z := z mod 65536.
Definition to_uint32 (z : Z) : Z := z mod 4294967296.
Definition to_int16 (z : Z) : Z := (z + 32768) mod 65536 - 32768.
Definition to_int32 (z : Z) : Z := (z + 2147483648) mod 4294967296 - 2147483648.

(** [c++] on an [unsigned long]. *)
Definition incr_ulong (c : Z) : Z := to_uint32 (c + 1).

(** ** Configuration and protocol constants *)

Definition TRAIL_LEN : Z := 100.
Definition BUF_SIZE : Z := 128.          (* sizeof(buf) *)
Definition HDR : list Z := [0xAA; 0xFF; 0x03; 0x00].
Definition TAIL : list Z := [0x55; 0xCC].

(** ** Array reads

    [p[i]] for a byte array and for an [int16_t] array.  A read outside the
    list yields 0; the invariants below keep every read of the program
    inside its array. *)

Definition byte_at (p : list Z) (i : Z) : Z := default 0 (p !! Z.to_nat i).
Definition cell_at (p : list Z) (i : Z) : Z := default 0 (p !! Z.to_nat i).

(** [le_u16(&p[i])]: the operands are promoted to [int], the result is
    converted to [uint16_t] on return. *)
Definition le_u16 (p : list Z) (i : Z) : Z :=
  to_uint16 (Z.lor (to_uint16 (byte_at p i))
                   (Z.shiftl (to_uint16 (byte_at p (i + 1))) 8)).

(** ** Field decoding (parseFrames, lines 52-55) *)

Definition decode_x (xr : Z) : Z :=
  if negb (Z.land xr 0x8000 =? 0)
  then to_int16 (xr - 32768)
  else to_int16 (- to_int32 xr).

Definition decode_y (yr : Z) : Z := to_int16 (yr - 32768).

Definition decode_v (vr : Z) : Z :=
  if negb (Z.land vr 0x8000 =? 0)
  then to_int16 (- to_int32 (vr - 32768))
  else to_int16 vr.

Definition decode_nz (xr yr vr : Z) : bool :=
  negb ((xr =? 0) && (yr =? 0) && (vr =? 0)).

(** The values the three expressions have before the final cast to
    [int16_t], in the 32-bit arithmetic of the source. *)
Definition x_wide (xr : Z) : Z :=
  if negb (Z.land xr 0x8000 =? 0) then xr - 32768 else - to_int32 xr.
Definition y_wide (yr : Z) : Z := yr - 32768.
Definition v_wide (vr : Z) : Z :=
  if negb (Z.land vr 0x8000 =? 0) then - to_int32 (vr - 32768) else vr.

(** ** State *)

(** [struct Target{bool v; int16_t x,y,vz; uint32_t seen;}] *)
Record Target := mkTarget {
  t_v : bool; t_x : Z; t_y : Z; t_vz : Z; t_seen : Z
}.

(** [struct Trail{int16_t X[TRAIL_LEN],Y[TRAIL_LEN]; int head=0,n=0;
    unsigned long last=0;}] *)
Record Trail := mkTrail {
  tr_X : list Z; tr_Y : list Z; tr_head : Z; tr_n : Z; tr_last : Z
}.

(** The globals of the sketch that the core touches, and the number of
    [millis()] calls made so far. *)
Record State := mkState {
  T : list Target;
  tr : list Trail;
  framesSeen : Z;
  framesOK : Z;
  errs : Z;
  buf : list Z;
  blen : Z;
  ticks : nat
}.

Definition Target0 : Target := mkTarget false 0 0 0 0.
Definition Trail0 : Trail :=
  mkTrail (replicate 100 0) (replicate 100 0) 0 0 0.

(** The state after static initialisation: every global is zero. *)
Definition init : State :=
  mkState (replicate 3 Target0) (replicate 3 Trail0) 0 0 0
          (replicate 128 0) 0 0%nat.

Definition set_buffer (b : list Z) (l : Z) (s : State) : State :=
  mkState (T s) (tr s) (framesSeen s) (framesOK s) (errs s) b l (ticks s).
Definition set_T (t : list Target) (s : State) : State :=
  mkState t (tr s) (framesSeen s) (framesOK s) (errs s) (buf s) (blen s) (ticks s).
Definition set_tr (t : list Trail) (s : State) : State :=
  mkState (T s) t (framesSeen s) (framesOK s) (errs s) (buf s) (blen s) (ticks s).
Definition bump_framesSeen (s : State) : State :=
  mkState (T s) (tr s) (incr_ulong (framesSeen s)) (framesOK s) (errs s)
          (buf s) (blen s) (ticks s).
Definition bump_framesOK (s : State) : State :=
  mkState (T s) (tr s) (framesSeen s) (incr_ulong (framesOK s)) (errs s)
          (buf s) (blen s) (ticks s).
Definition bump_errs (s : State) : State :=
  mkState (T s) (tr s) (framesSeen s) (framesOK s) (incr_ulong (errs s))
          (buf s) (blen s) (ticks s).
Definition tick (s : State) : State :=
  mkState (T s) (tr s) (framesSeen s) (framesOK s) (errs s)
          (buf s) (blen s) (S (ticks s)).

(** The bytes the buffer currently holds: [buf[0 .. blen)]. *)
Definition live (s : State) : list Z := take (Z.to_nat (blen s)) (buf s).

(** ** Byte intake (pushBytes, line 39)

    [while (Serial1.available() && blen < sizeof(buf))
       buf[blen++] = (uint8_t)Serial1.read();]
    returns the bytes left unread in the receive queue. *)
Fixpoint pushBytes (serial : list Z) (s : State) : list Z * State :=
  match serial with
  | [] => ([], s)
  | b :: rest =>
      if blen s <? BUF_SIZE
      then pushBytes rest
             (set_buffer (<[Z.to_nat (blen s) := to_uint8 b]> (buf s))
                         (blen s + 1) s)
      else (serial, s)
  end.

(** ** Frame synchronizer (parseFrames, lines 41-60) *)

(** [memmove(buf, buf+off, cnt)] *)
Definition memmove_front (b : list Z) (off cnt : Z) : list Z :=
  take (Z.to_nat cnt) (drop (Z.to_nat off) b) ++ drop (Z.to_nat cnt) b.

(** [memcpy(f, buf+h, 30)] *)
Definition memcpy_frame (b : list Z) (h : Z) : list Z :=
  take 30 (drop (Z.to_nat h) b).

Definition hdr_at (b : list Z) (i : Z) : bool :=
  (byte_at b i =? byte_at HDR 0) && (byte_at b (i + 1) =? byte_at HDR 1)
  && (byte_at b (i + 2) =? byte_at HDR 2) && (byte_at b (i + 3) =? byte_at HDR 3).

(** The header scan of line 44, started at [i] with [k] candidate offsets
    left; -1 when none matches. *)
Fixpoint scan_hdr (b : list Z) (i : Z) (k : nat) : Z :=
  match k with
  | O => -1
  | S k' => if hdr_at b i then i else scan_hdr b (i + 1) k'
  end.

(** [int h=-1; for(int i=0;i<=blen-30;i++){ ... }] *)
Definition find_hdr (b : list Z) (bl : Z) : Z :=
  scan_hdr b 0 (Z.to_nat (bl - 30 + 1)).

Definition tail_bad (f : list Z) : bool :=
  negb (byte_at f 28 =? byte_at TAIL 0) || negb (byte_at f 29 =? byte_at TAIL 1).

(** The state after line 47: the frame and everything before it removed,
    [framesSeen] counted. *)
Definition after_take (s : State) (h : Z) : State :=
  bump_framesSeen
    (set_buffer (memmove_front (buf s) (h + 30) (blen s - (h + 30)))
                (blen s - (h + 30)) s).

Section Sketch.

(** The reading of the [n]-th call of [millis()]. *)
Variable millis_at : nat -> Z.

Definition millis (s : State) : Z * State :=
  (to_uint32 (millis_at (ticks s)), tick s).

(** The body of the [for(int k=0;k<3;k++)] loop, lines 50-56. *)
Definition decode_target (f : list Z) (k : Z) (s : State) : State :=
  let b := 4 + k * 8 in
  let xr := le_u16 f (b + 0) in
  let yr := le_u16 f (b + 2) in
  let vr := le_u16 f (b + 4) in
  let x := decode_x xr in
  let y := decode_y yr in
  let v := decode_v vr in
  let nz := decode_nz xr yr vr in
  let '(now, s1) := millis s in
  set_T (<[Z.to_nat k := mkTarget nz x y v now]> (T s1)) s1.

(** Lines 49-58: the three sub-records, then [framesOK++]. *)
Definition decode_frame (f : list Z) (s : State) : State :=
  bump_framesOK (decode_target f 2 (decode_target f 1 (decode_target f 0 s))).

(** One iteration of [for(;;)]; the flag is [true] when the loop goes round
    again ([continue] or the end of the body) and [false] on [return]. *)
Definition parse_step (s : State) : State * bool :=
  if blen s <? 30 then (s, false) else
  let h := find_hdr (buf s) (blen s) in
  if h <? 0 then
    let drop := blen s - 29 in
    ((if 0 <? drop
      then set_buffer (memmove_front (buf s) drop (blen s - drop)) (blen s - drop) s
      else s), false)
  else if blen s <? h + 30 then
    ((if 0 <? h
      then set_buffer (memmove_front (buf s) h (blen s - h)) (blen s - h) s
      else s), false)
  else
    let f := memcpy_frame (buf s) h in
    let take := h + 30 in
    let s1 := bump_framesSeen
                (set_buffer (memmove_front (buf s) take (blen s - take))
                            (blen s - take) s) in
    if tail_bad f then (bump_errs s1, true)
    else (decode_frame f s1, true).

(** The loop with an iteration budget; [None] when the budget runs out. *)
Fixpoint parse_loop (fuel : nat) (s : State) : option State :=
  match fuel with
  | O => None
  | S fuel' =>
      let '(s', again) := parse_step s in
      if again then parse_loop fuel' s' else Some s'
  end.

(** Every iteration that goes round again removes at least 30 bytes, so
    [blen + 1] iterations always suffice (see [parse_loop_enough]). *)
Definition parse_fuel (s : State) : nat := S (Z.to_nat (blen s)).

Definition parseFrames (s : State) : State :=
  default s (parse_loop (parse_fuel s) s).

(** ** Trail recorder (sampleTrails, line 62) *)

(** The body of the [if]: store the position at [head], advance [head],
    saturate [n]. *)
Definition trail_put (now x y : Z) (t : Trail) : Trail :=
  mkTrail (<[Z.to_nat (tr_head t) := x]> (tr_X t))
          (<[Z.to_nat (tr_head t) := y]> (tr_Y t))
          (Z.rem (tr_head t + 1) TRAIL_LEN)
          (if tr_n t <? TRAIL_LEN then tr_n t + 1 else tr_n t)
          now.

(** [if(now - tr[k].last >= 120){ ... }], in [unsigned long] arithmetic. *)
Definition trail_sample (now x y : Z) (t : Trail) : Trail :=
  if 120 <=? to_uint32 (now - tr_last t) then trail_put now x y t else t.

Definition sample_slot (now : Z) (k : Z) (s : State) : State :=
  match tr s !! Z.to_nat k, T s !! Z.to_nat k with
  | Some t, Some tg =>
      set_tr (<[Z.to_nat k := trail_sample now (t_x tg) (t_y tg) t]> (tr s)) s
  | _, _ => s
  end.

Definition sampleTrails (s : State) : State :=
  let '(now, s1) := millis s in
  sample_slot now 2 (sample_slot now 1 (sample_slot now 0 s1)).

End Sketch.

(** ** Trail snapshot (page, line 73)

    [for(int j=0;j<tr[i].n;j++){ int idx=(tr[i].head+j)%TRAIL_LEN;
       trX+=String(tr[i].X[idx]); trY+=String(tr[i].Y[idx]); }]
    The positions are paired here; the page sends the two coordinate lists
    [trX[i]], [trY[i]] and the length [trN[i]] to the canvas script. *)
Definition trail_snapshot (t : Trail) : list (Z * Z) :=
  (fun j => let idx := Z.rem (tr_head t + j) TRAIL_LEN in
            (cell_at (tr_X t) idx, cell_at (tr_Y t) idx)) <$> seqZ 0 (tr_n t).

(** The raw [Y] cells the "History" block of [page] reads (line 94), in the
    order it prints them: the last [min n 12] samples, oldest first.
    [for(int i=show-1;i>=0;i--){ int idx=(head+TRAIL_LEN-1-i)%TRAIL_LEN; ... }] *)
Definition history_Y (t : Trail) : list Z :=
  let show := if tr_n t <? 12 then tr_n t else 12 in
  (fun i => cell_at (tr_Y t) (Z.rem (tr_head t + TRAIL_LEN - 1 - i) TRAIL_LEN))
    <$> reverse (seqZ 0 show).

(** The reading order the specification gives for a trail: [count]
    entries, the oldest at index [(head - count) mod capacity]. *)
Definition trail_oldest_first (t : Trail) : list (Z * Z) :=
  (fun j => let idx := (tr_head t - tr_n t + j) mod TRAIL_LEN in
            (cell_at (tr_X t) idx, cell_at (tr_Y t) idx)) <$> seqZ 0 (tr_n t).

(** A trail after the samples [ps] have been stored one after the other. *)
Definition trail_puts (ps : list (Z * Z)) (t : Trail) : Trail :=
  foldl (fun t p => trail_put 0 (fst p) (snd p) t) t ps.

(** The shape of a trail: both arrays have [TRAIL_LEN] cells, [head] is a
    cell index and [n] counts at most [TRAIL_LEN] entries. *)
Definition trail_ok (t : Trail) : Prop :=
  length (tr_X t) = 100%nat /\ length (tr_Y t) = 100%nat /\
  0 <= tr_head t < TRAIL_LEN /\ 0 <= tr_n t <= TRAIL_LEN.

(** ** Runs of the intake / synchronize cycle *)

Inductive op :=
| Arrive (bytes : list Z)      (* bytes reach the receive queue *)
| Intake                       (* pushBytes() *)
| Synchronize.                 (* parseFrames() *)

Definition run_op (millis_at : nat -> Z) (o : op) (m : list Z * State)
  : list Z * State :=
  match o with
  | Arrive bytes => (fst m ++ bytes, snd m)
  | Intake => pushBytes (fst m) (snd m)
  | Synchronize => (fst m, parseFrames millis_at (snd m))
  end.

Definition run (millis_at : nat -> Z) (ops : list op) (m : list Z * State)
  : list Z * State :=
  foldl (fun m o => run_op millis_at o m) m ops.

(** ** Well-formedness *)

(** The intake buffer invariant: [0 <= blen <= sizeof(buf)]. *)
Definition blen_ok (s : State) : Prop := 0 <= blen s <= BUF_SIZE.

(** The array keeps its declared length. *)
Definition buf_ok (s : State) : Prop :=
  length (buf s) = 128%nat /\ blen_ok s.

Definition is_byte (b : Z) : Prop := 0 <= b < 256.
Definition is_u16 (r : Z) : Prop := 0 <= r < 65536.

(** A frame as the radar sends it: 30 bytes, header first, tail last. *)
Definition valid_frame (f : list Z) : Prop :=
  length f = 30%nat /\ take 4 f = HDR /\ drop 28 f = TAIL /\ Forall is_byte f.

(** Everything but the intake buffer is the same in [s] and [s']. *)
Definition same_tables (s s' : State) : Prop :=
  T s' = T s /\ tr s' = tr s /\ framesSeen s' = framesSeen s /\
  framesOK s' = framesOK s /\ errs s' = errs s /\ ticks s' = ticks s.

(** What accepting the frames [frames] one after the other, in list order,
    does to the tables and counters: each frame is counted in [framesSeen]
    and decoded into the Target Table. *)
Definition accept_all (millis_at : nat -> Z) (frames : list (list Z))
    (s : State) : State :=
  foldl (fun st f => decode_frame millis_at f (bump_framesSeen st)) s frames.

(** The record line 56 stores for sub-record [k] of frame [f] when
    [millis()] reads [now]. *)
Definition target_of (f : list Z) (k : Z) (now : Z) : Target :=
  let b := 4 + k * 8 in
  mkTarget (decode_nz (le_u16 f b) (le_u16 f (b + 2)) (le_u16 f (b + 4)))
           (decode_x (le_u16 f b)) (decode_y (le_u16 f (b + 2)))
           (decode_v (le_u16 f (b + 4))) now.

(** ** Sample data *)

(** A clock that always reads one second. *)
Definition millis_1000 : nat -> Z := fun _ => 1000.

(** A frame whose first sub-record has [x_raw = 0x8005], [y_raw = 0x8007],
    [v_raw = 0x0003] and whose other two sub-records are all zero. *)
Definition frame_a : list Z :=
  HDR ++ [0x05; 0x80; 0x07; 0x80; 0x03; 0x00; 0; 0] ++ replicate 16 0 ++ TAIL.

(** A second frame, first sub-record [x_raw = 0x0009], [y_raw = 0x8001],
    [v_raw = 0x8002]. *)
Definition frame_b : list Z :=
  HDR ++ [0x09; 0x00; 0x01; 0x80; 0x02; 0x80; 0; 0] ++ replicate 16 0 ++ TAIL.

(** [frame_a] with its last byte corrupted. *)
Definition frame_a_bad_tail : list Z :=
  HDR ++ [0x05; 0x80; 0x07; 0x80; 0x03; 0x00; 0; 0] ++ replicate 16 0
      ++ [0x55; 0x00].

(** Thirty bytes: ten bytes of noise, then the header and the first
    sixteen bytes of a frame's payload.  The header sits at offset 10 with
    only 20 bytes after its start. *)
Definition noise_then_partial : list Z :=
  replicate 10 0x11 ++ HDR ++ replicate 16 0x22.

(** The state after the bytes [bytes] have arrived and been taken in, on a
    freshly started sketch. *)
Definition loaded (bytes : list Z) : State := snd (pushBytes bytes init).

(** The behaviour C6 describes for an intake that does not fit: the buffer
    ends up holding the newest 128 of the bytes buffered and waiting, the
    oldest having been dropped. *)
Definition drops_oldest_first (serial : list Z) (s : State) : Prop :=
  let all := live s ++ (to_uint8 <$> serial) in
  live (snd (pushBytes serial s)) = drop (length all - 128) all.

(** ** The rest of the sketch state machine *)

(** Everything that can happen to the state between two moments of a run:
    bytes reach the receive queue, [pushBytes], [parseFrames] or
    [sampleTrails] is called, or some other code reads the clock ([page],
    [handleJSON] and [loop] call [millis()] and otherwise only read the
    state).  [loop] is one particular sequence of these steps. *)
Inductive act :=
| A_arrive (bytes : list Z)
| A_pushBytes
| A_parseFrames
| A_sampleTrails
| A_millis.

Definition do_act (millis_at : nat -> Z) (a : act) (m : list Z * State)
  : list Z * State :=
  match a with
  | A_arrive bytes => (fst m ++ bytes, snd m)
  | A_pushBytes => pushBytes (fst m) (snd m)
  | A_parseFrames => (fst m, parseFrames millis_at (snd m))
  | A_sampleTrails => (fst m, sampleTrails millis_at (snd m))
  | A_millis => (fst m, snd (millis millis_at (snd m)))
  end.

Definition do_acts (millis_at : nat -> Z) (acts : list act)
    (m : list Z * State) : list Z * State :=
  foldl (fun m a => do_act millis_at a m) m acts.

(** The steps by which a byte stream cut into [chunks] goes through the
    sketch: each chunk arrives, is taken in, and a pass runs. *)
Fixpoint chunk_acts (chunks : list (list Z)) : list act :=
  match chunks with
  | [] => []
  | c :: cs => A_arrive c :: A_pushBytes :: A_parseFrames :: chunk_acts cs
  end.

(** Every frame seen has been either accepted or counted as an error
    (in [unsigned long] arithmetic). *)
Definition counters_ok (s : State) : Prop :=
  framesSeen s = to_uint32 (framesOK s + errs s).

Definition is_i16 (z : Z) : Prop := -32768 <= z <= 32767.
Definition is_u32 (z : Z) : Prop := 0 <= z < 4294967296.

(** Each cell holds a value of its declared C type. *)
Definition target_typed (t : Target) : Prop :=
  is_i16 (t_x t) /\ is_i16 (t_y t) /\ is_i16 (t_vz t) /\ is_u32 (t_seen t).

Definition trail_typed (t : Trail) : Prop :=
  trail_ok t /\ Forall is_i16 (tr_X t) /\ Forall is_i16 (tr_Y t) /\
  is_u32 (tr_last t).

(** The globals have the shapes and value ranges of their declarations. *)
Definition sketch_typed (s : State) : Prop :=
  length (T s) = 3%nat /\ Forall target_typed (T s) /\
  length (tr s) = 3%nat /\ Forall trail_typed (tr s) /\
  is_u32 (framesSeen s) /\ is_u32 (framesOK s) /\ is_u32 (errs s) /\
  buf_ok s /\ Forall is_byte (buf s).

(** One extracted frame: counted as an error or decoded (lines 47-58). *)
Definition judge_frame (millis_at : nat -> Z) (s : State) (f : list Z)
  : State :=
  if tail_bad f then bump_errs (after_take s 0)
  else decode_frame millis_at f (after_take s 0).

(** A frame-sized block that starts with the header. *)
Definition aligned_frame (f : list Z) : Prop :=
  length f = 30%nat /\ take 4 f = HDR.

(** ** The CSV tick of [loop] (lines 129-137) *)

Definition UI_MS : Z := 100.

Definition CSV_HEADER : string :=
  "t1x,t1y,t1v,t1age,t2x,t2y,t2v,t2age,t3x,t3y,t3v,t3age".

(** The calls made on [Serial]. *)
Inductive print_call :=
| Print_num (z : Z)
| Print_str (s : string)
| Println_num (z : Z)
| Println_str (s : string).

(** [lastTick], [csvHeaderDone] and what has been printed so far. *)
Record Csv := mkCsv {
  lastTick : Z; csvHeaderDone : bool; printed : list print_call
}.

Definition Csv0 : Csv := mkCsv 0 false [].

(** [T[i]] *)
Definition target_at (tt : list Target) (i : nat) : Target :=
  default Target0 (tt !! i).

(** Lines 133-136: the three ages, then the twelve cells of a row. *)
Definition csv_row (now : Z) (tt : list Target) : list print_call :=
  let a0 := to_uint32 (now - t_seen (target_at tt 0)) in
  let a1 := to_uint32 (now - t_seen (target_at tt 1)) in
  let a2 := to_uint32 (now - t_seen (target_at tt 2)) in
  [ Print_num (t_x (target_at tt 0)); Print_str ",";
    Print_num (t_y (target_at tt 0)); Print_str ",";
    Print_num (t_vz (target_at tt 0)); Print_str ",";
    Print_num a0; Print_str ",";
    Print_num (t_x (target_at tt 1)); Print_str ",";
    Print_num (t_y (target_at tt 1)); Print_str ",";
    Print_num (t_vz (target_at tt 1)); Print_str ",";
    Print_num a1; Print_str ",";
    Print_num (t_x (target_at tt 2)); Print_str ",";
    Print_num (t_y (target_at tt 2)); Print_str ",";
    Print_num (t_vz (target_at tt 2)); Print_str ",";
    Println_num a2 ].

(** [if (now - lastTick >= UI_MS){ lastTick = now; if (!csvHeaderDone){
    Serial.println(header); csvHeaderDone=true; } ...row... }], with [now]
    the reading of [millis()] and [tt] the Target Table at that moment. *)
Definition csv_tick (c : Csv) (tick_in : Z * list Target) : Csv :=
  let now := fst tick_in in
  if UI_MS <=? to_uint32 (now - lastTick c) then
    mkCsv now true
          ((if csvHeaderDone c then printed c
            else printed c ++ [Println_str CSV_HEADER])
           ++ csv_row now (snd tick_in))
  else c.

(** The rows printed for the ticks [due]. *)
Definition csv_rows (due : list (Z * list Target)) : list print_call :=
  concat ((fun i => csv_row (fst i) (snd i)) <$> due).

(** The ticks that print a row, given the [lastTick] they start from. *)
Fixpoint due_ticks (lastT : Z) (ins : list (Z * list Target))
  : list (Z * list Target) :=
  match ins with
  | [] => []
  | i :: rest =>
      if UI_MS <=? to_uint32 (fst i - lastT)
      then i :: due_ticks (fst i) rest
      else due_ticks lastT rest
  end.

(** * Properties *)

(** ** Arithmetic of the conversions *)

Lemma to_int16_id z : -32768 <= z <= 32767 -> to_int16 z = z.
Proof. intros Hz. unfold to_int16. rewrite Z.mod_small; lia. Qed.

Lemma to_int32_id z : -2147483648 <= z <= 2147483647 -> to_int32 z = z.
Proof. intros Hz. unfold to_int32. rewrite Z.mod_small; lia. Qed.

Lemma to_uint8_id z : is_byte z -> to_uint8 z = z.
Proof. intros Hz. apply Z.mod_small. exact Hz. Qed.

Lemma to_uint16_id z : is_u16 z -> to_uint16 z = z.
Proof. intros Hz. apply Z.mod_small. exact Hz. Qed.

Lemma to_uint8_byte z : is_byte (to_uint8 z).
Proof. apply Z.mod_pos_bound. lia. Qed.

Lemma to_uint16_u16 z : is_u16 (to_uint16 z).
Proof. apply Z.mod_pos_bound. lia. Qed.

Lemma le_u16_range p i : is_u16 (le_u16 p i).
Proof. apply to_uint16_u16. Qed.

(** Bit 15 of a 16-bit value is set exactly from 32768 upwards. *)
Lemma high_bit_ge r : is_u16 r -> Z.testbit r 15 = (32768 <=? r).
Proof.
  intros [Hlo Hhi].
  destruct (Z.leb_spec 32768 r) as [Hge | Hlt].
  - apply Z.testbit_true; [lia |].
    change (2 ^ 15) with 32768.
    assert (r / 32768 = 1) as ->
      by (symmetry; apply Z.div_unique with (r - 32768); lia).
    reflexivity.
  - apply Z.testbit_false; [lia |].
    change (2 ^ 15) with 32768.
    rewrite Z.div_small by lia. reflexivity.
Qed.

(** The mask test [r & 0x8000] of the source is the test of bit 15. *)
Lemma mask_high_bit r : negb (Z.land r 0x8000 =? 0) = Z.testbit r 15.
Proof.
  assert (Z.land r 0x8000 = if Z.testbit r 15 then 32768 else 0) as ->.
  { apply Z.bits_inj'. intros n Hn.
    rewrite Z.land_spec.
    change 32768 with (2 ^ 15) at 1.
    rewrite Z.pow2_bits_eqb by lia.
    destruct (Z.eqb_spec 15 n) as [<- | Hne].
    - rewrite andb_true_r.
      destruct (Z.testbit r 15); [| by rewrite Z.bits_0].
      change 32768 with (2 ^ 15). by rewrite Z.pow2_bits_true.
    - rewrite andb_false_r.
      destruct (Z.testbit r 15); [| by rewrite Z.bits_0].
      change 32768 with (2 ^ 15). rewrite Z.pow2_bits_false; [done | lia]. }
  by destruct (Z.testbit r 15).
Qed.

Lemma decode_x_wide xr : is_u16 xr -> decode_x xr = x_wide xr.
Proof.
  intros Hx. unfold decode_x, x_wide.
  rewrite mask_high_bit, (high_bit_ge _ Hx).
  unfold is_u16 in Hx.
  destruct (Z.leb_spec 32768 xr).
  - apply to_int16_id. lia.
  - rewrite to_int32_id by lia. apply to_int16_id. lia.
Qed.

Lemma decode_y_wide yr : is_u16 yr -> decode_y yr = y_wide yr.
Proof.
  intros Hy. unfold decode_y, y_wide, is_u16 in *. apply to_int16_id. lia.
Qed.

Lemma decode_v_wide vr : is_u16 vr -> decode_v vr = v_wide vr.
Proof.
  intros Hv. unfold decode_v, v_wide.
  rewrite mask_high_bit, (high_bit_ge _ Hv).
  unfold is_u16 in Hv.
  destruct (Z.leb_spec 32768 vr).
  - rewrite to_int32_id by lia. apply to_int16_id. lia.
  - apply to_int16_id. lia.
Qed.

Lemma x_wide_range xr : is_u16 xr -> -32767 <= x_wide xr <= 32767.
Proof.
  intros Hx. unfold x_wide.
  rewrite mask_high_bit, (high_bit_ge _ Hx).
  unfold is_u16 in Hx.
  destruct (Z.leb_spec 32768 xr); [| rewrite to_int32_id by lia]; lia.
Qed.

Lemma y_wide_range yr : is_u16 yr -> -32768 <= y_wide yr <= 32767.
Proof. unfold y_wide, is_u16. lia. Qed.

Lemma v_wide_range vr : is_u16 vr -> -32767 <= v_wide vr <= 32767.
Proof.
  intros Hv. unfold v_wide.
  rewrite mask_high_bit, (high_bit_ge _ Hv).
  unfold is_u16 in Hv.
  destruct (Z.leb_spec 32768 vr); [rewrite to_int32_id by lia |]; lia.
Qed.

(** ** The header scan *)

Lemma scan_hdr_spec b k : forall i,
  (scan_hdr b i k = -1 /\
   forall j, i <= j < i + Z.of_nat k -> hdr_at b j = false) \/
  (i <= scan_hdr b i k < i + Z.of_nat k /\
   hdr_at b (scan_hdr b i k) = true /\
   forall j, i <= j < scan_hdr b i k -> hdr_at b j = false).
Proof.
  induction k as [| k IH]; intros i; simpl scan_hdr.
  - left. split; [done | intros j Hj; lia].
  - destruct (hdr_at b i) eqn:Hi.
    + right. split; [lia |]. split; [done | intros j Hj; lia].
    + destruct (IH (i + 1)) as [[Hnone Hall] | (Hrange & Hhit & Hbefore)].
      * left. split; [done |]. intros j Hj.
        destruct (decide (j = i)) as [-> | Hne]; [done | apply Hall; lia].
      * right. split; [lia |]. split; [done |]. intros j Hj.
        destruct (decide (j = i)) as [-> | Hne]; [done | apply Hbefore; lia].
Qed.

(** The scan only ever reports an offset that leaves room for a whole
    frame: the test [h+30 > blen] of line 46 never succeeds. *)
Lemma find_hdr_bound b bl :
  find_hdr b bl = -1 \/ 0 <= find_hdr b bl <= bl - 30.
Proof.
  unfold find_hdr.
  destruct (scan_hdr_spec b (Z.to_nat (bl - 30 + 1)) 0)
    as [[Hnone _] | (Hrange & _)]; [by left | right; lia].
Qed.

Lemma find_hdr_front b bl :
  30 <= bl -> hdr_at b 0 = true -> find_hdr b bl = 0.
Proof.
  intros Hbl H0. unfold find_hdr.
  destruct (Z.to_nat (bl - 30 + 1)) as [| k] eqn:Hk; [lia |].
  simpl. by rewrite H0.
Qed.

(** ** Array moves *)

Lemma memmove_front_length b off cnt :
  0 <= off -> 0 <= cnt -> off + cnt <= Z.of_nat (length b) ->
  length (memmove_front b off cnt) = length b.
Proof.
  intros Hoff Hcnt Hfit. unfold memmove_front.
  rewrite length_app, length_take, !length_drop. lia.
Qed.

(** After [memmove(buf, buf+off, cnt)] the first [cnt] cells hold what was
    at [off .. off+cnt). *)
Lemma memmove_front_take b off cnt :
  0 <= off -> 0 <= cnt -> off + cnt <= Z.of_nat (length b) ->
  take (Z.to_nat cnt) (memmove_front b off cnt)
  = take (Z.to_nat cnt) (drop (Z.to_nat off) b).
Proof.
  intros Hoff Hcnt Hfit. unfold memmove_front.
  rewrite take_app_le by (rewrite length_take, length_drop; lia).
  rewrite take_take. f_equal. lia.
Qed.

Section SketchFacts.

Variable millis_at : nat -> Z.

(** ** One iteration of the synchronizer *)

(** The three ways an iteration can go. *)
Lemma parse_step_cases s :
  (blen s < 30 /\ parse_step millis_at s = (s, false)) \/
  (30 <= blen s /\ find_hdr (buf s) (blen s) = -1 /\
   parse_step millis_at s
   = (set_buffer (memmove_front (buf s) (blen s - 29) 29) 29 s, false)) \/
  (30 <= blen s /\ 0 <= find_hdr (buf s) (blen s) <= blen s - 30 /\
   parse_step millis_at s
   = (let h := find_hdr (buf s) (blen s) in
      let f := memcpy_frame (buf s) h in
      if tail_bad f then bump_errs (after_take s h)
      else decode_frame millis_at f (after_take s h), true)).
Proof.
  unfold parse_step.
  destruct (Z.ltb_spec (blen s) 30) as [Hshort | Hlong]; [by left | right].
  destruct (find_hdr_bound (buf s) (blen s)) as [Hnone | Hfound].
  - left. rewrite Hnone. simpl.
    destruct (Z.ltb_spec 0 (blen s - 29)) as [_ | ?]; [| lia].
    replace (blen s - (blen s - 29)) with 29 by lia. done.
  - right.
    destruct (Z.ltb_spec (find_hdr (buf s) (blen s)) 0) as [? | _]; [lia |].
    destruct (Z.ltb_spec (blen s) (find_hdr (buf s) (blen s) + 30))
      as [? | _]; [lia |].
    split; [done |]. split; [done |]. unfold after_take. simpl.
    by destruct (tail_bad _).
Qed.

Lemma decode_target_buffer f k s :
  buf (decode_target millis_at f k s) = buf s /\ blen (decode_target millis_at f k s) = blen s.
Proof. done. Qed.

Lemma decode_frame_buffer f s :
  buf (decode_frame millis_at f s) = buf s /\ blen (decode_frame millis_at f s) = blen s.
Proof. done. Qed.

(** An iteration never lengthens the buffer contents, and one that goes
    round again has removed a whole frame. *)
Lemma parse_step_blen s s' again :
  parse_step millis_at s = (s', again) ->
  (blen_ok s -> blen_ok s') /\
  (again = true -> blen s' <= blen s - 30 /\ 0 <= blen s').
Proof.
  unfold blen_ok, BUF_SIZE.
  destruct (parse_step_cases s)
    as [[Hs ->] | [(Hs & Hh & ->) | (Hs & Hh & ->)]]; intros [= <- <-].
  - split; [done | done].
  - split; [simpl; lia | done].
  - assert (blen (after_take s (find_hdr (buf s) (blen s)))
            = blen s - (find_hdr (buf s) (blen s) + 30)) as Hb by done.
    simpl. destruct (tail_bad _).
    + change (blen (bump_errs ?t)) with (blen t). rewrite Hb. lia.
    + rewrite (proj2 (decode_frame_buffer _ _)), Hb. lia.
Qed.

Lemma parse_step_length s s' again :
  parse_step millis_at s = (s', again) -> buf_ok s -> buf_ok s'.
Proof.
  intros Hstep [Hlen Hb]. split; [| by eapply parse_step_blen].
  revert Hstep. unfold blen_ok, BUF_SIZE in Hb.
  destruct (parse_step_cases s)
    as [[Hs ->] | [(Hs & Hh & ->) | (Hs & Hh & ->)]]; intros [= <- <-].
  - done.
  - simpl. rewrite memmove_front_length; [done | lia..].
  - assert (buf (after_take s (find_hdr (buf s) (blen s)))
            = memmove_front (buf s) (find_hdr (buf s) (blen s) + 30)
                (blen s - (find_hdr (buf s) (blen s) + 30))) as Hbuf by done.
    simpl. destruct (tail_bad _).
    + change (buf (bump_errs ?t)) with (buf t). rewrite Hbuf.
      rewrite memmove_front_length; [done | lia..].
    + rewrite (proj1 (decode_frame_buffer _ _)), Hbuf.
      rewrite memmove_front_length; [done | lia..].
Qed.

(** ** The loop terminates *)

Lemma parse_loop_enough fuel : forall s,
  (Z.to_nat (blen s) < fuel)%nat -> is_Some (parse_loop millis_at fuel s).
Proof.
  induction fuel as [| fuel IH]; intros s Hfuel; [lia |].
  simpl. destruct (parse_step millis_at s) as [s' again] eqn:Hstep.
  destruct again; [| by eexists].
  destruct (parse_step_blen _ _ _ Hstep) as [_ Hdec].
  destruct (Hdec eq_refl) as [Hle Hnn].
  apply IH. lia.
Qed.

Lemma parse_loop_mono fuel : forall s r fuel',
  parse_loop millis_at fuel s = Some r -> (fuel <= fuel')%nat ->
  parse_loop millis_at fuel' s = Some r.
Proof.
  induction fuel as [| fuel IH]; intros s r fuel' Hrun Hle; [done |].
  destruct fuel' as [| fuel']; [lia |].
  simpl in *. destruct (parse_step millis_at s) as [s' again].
  destruct again; [| done]. apply (IH _ _ _ Hrun). lia.
Qed.

(** [parseFrames millis_at] always returns, and its result does not depend on the
    budget. *)
Lemma parseFrames_returns s :
  parse_loop millis_at (parse_fuel s) s = Some (parseFrames millis_at s).
Proof.
  unfold parseFrames.
  destruct (parse_loop_enough (parse_fuel s) s) as [r Hr];
    [unfold parse_fuel; lia |].
  by rewrite Hr.
Qed.

Lemma parseFrames_fuel s fuel r :
  parse_loop millis_at fuel s = Some r -> parseFrames millis_at s = r.
Proof.
  intros Hrun. pose proof (parseFrames_returns s) as Hret.
  destruct (Nat.le_ge_cases fuel (parse_fuel s)) as [Hle | Hge].
  - rewrite (parse_loop_mono _ _ _ _ Hrun Hle) in Hret. congruence.
  - rewrite (parse_loop_mono _ _ _ _ Hret Hge) in Hrun. congruence.
Qed.

(** The loop equation of [for(;;)]. *)
Lemma parseFrames_unfold s :
  parseFrames millis_at s
  = let '(s', again) := parse_step millis_at s in
    if again then parseFrames millis_at s' else s'.
Proof.
  destruct (parse_step millis_at s) as [s' again] eqn:Hstep.
  destruct again.
  - apply (parseFrames_fuel s (S (parse_fuel s'))).
    simpl. rewrite Hstep. apply parseFrames_returns.
  - apply (parseFrames_fuel s 1). simpl. by rewrite Hstep.
Qed.

Lemma parseFrames_short s : blen s < 30 -> parseFrames millis_at s = s.
Proof.
  intros Hs. rewrite parseFrames_unfold. unfold parse_step.
  destruct (Z.ltb_spec (blen s) 30); [done | lia].
Qed.

End SketchFacts.

(** ** Byte intake *)

Lemma live_length s : buf_ok s -> length (live s) = Z.to_nat (blen s).
Proof.
  intros [Hlen [Hlo Hhi]]. unfold live, BUF_SIZE in *.
  rewrite length_take. lia.
Qed.

(** Storing one byte at [buf[blen]] and advancing [blen]. *)
Lemma push_one_live b s :
  buf_ok s -> blen s < BUF_SIZE ->
  live (set_buffer (<[Z.to_nat (blen s) := b]> (buf s)) (blen s + 1) s)
  = live s ++ [b].
Proof.
  intros [Hlen [Hlo Hhi]] Hroom. unfold live, BUF_SIZE in *. simpl.
  replace (Z.to_nat (blen s + 1)) with (S (Z.to_nat (blen s))) by lia.
  rewrite (take_S_r _ _ b) by (apply list_lookup_insert_eq; lia).
  by rewrite take_insert_ge.
Qed.

Lemma push_one_ok b s :
  buf_ok s -> blen s < BUF_SIZE ->
  buf_ok (set_buffer (<[Z.to_nat (blen s) := b]> (buf s)) (blen s + 1) s).
Proof.
  intros [Hlen [Hlo Hhi]] Hroom. unfold buf_ok, blen_ok, BUF_SIZE in *.
  simpl. rewrite length_insert. lia.
Qed.

(** What one call of [pushBytes] does: it appends as many of the waiting
    bytes as there is room for, oldest first, and leaves the others in the
    receive queue; the bytes already buffered stay where they are. *)
Lemma pushBytes_spec serial : forall s,
  buf_ok s ->
  let room := Z.to_nat (BUF_SIZE - blen s) in
  fst (pushBytes serial s) = drop room serial /\
  live (snd (pushBytes serial s)) = live s ++ (to_uint8 <$> take room serial) /\
  blen (snd (pushBytes serial s))
  = Z.min BUF_SIZE (blen s + Z.of_nat (length serial)) /\
  buf_ok (snd (pushBytes serial s)) /\
  same_tables s (snd (pushBytes serial s)).
Proof.
  induction serial as [| b rest IH]; intros s Hok room; subst room.
  - simpl. rewrite take_nil, drop_nil, app_nil_r.
    destruct Hok as [? [? ?]]. repeat split; try done. simpl. lia.
  - simpl pushBytes.
    destruct (Z.ltb_spec (blen s) BUF_SIZE) as [Hroom | Hfull].
    + pose proof (push_one_ok (to_uint8 b) s Hok Hroom) as Hok1.
      pose proof (push_one_live (to_uint8 b) s Hok Hroom) as Hlive1.
      destruct (IH _ Hok1) as (Hq & Hl & Hb & Hok' & Hsame).
      set (s1 := set_buffer _ _ s) in *.
      assert (blen s1 = blen s + 1) as Hb1 by done.
      destruct Hok as [_ [Hlo _]].
      replace (Z.to_nat (BUF_SIZE - blen s))
        with (S (Z.to_nat (BUF_SIZE - blen s1))) by lia.
      simpl drop. simpl take. rewrite fmap_cons.
      rewrite Hq, Hl, Hb, Hlive1, Hb1, <- app_assoc. simpl.
      repeat split; try done; try apply Hok'; try apply Hsame. lia.
    + destruct Hok as [Hlen [Hlo Hhi]].
      replace (Z.to_nat (BUF_SIZE - blen s)) with 0%nat by lia.
      simpl. rewrite app_nil_r. repeat split; try done. lia.
Qed.

Lemma pushBytes_buf_ok serial s : buf_ok s -> buf_ok (snd (pushBytes serial s)).
Proof. intros Hok. by destruct (pushBytes_spec serial s Hok) as (_ & _ & _ & ? & _). Qed.

(** The bound alone is kept as well, whatever the array looks like. *)
Lemma pushBytes_blen_ok serial : forall s,
  blen_ok s -> blen_ok (snd (pushBytes serial s)).
Proof.
  induction serial as [| b rest IH]; intros s Hok; [done |].
  simpl. destruct (Z.ltb_spec (blen s) BUF_SIZE) as [Hroom | Hfull]; [| done].
  apply IH. unfold blen_ok in *. simpl. lia.
Qed.

(** Bytes that all fit can be handed over in one call or in two. *)
Lemma pushBytes_app a : forall b s,
  0 <= blen s -> blen s + Z.of_nat (length a) <= BUF_SIZE ->
  pushBytes (a ++ b) s = pushBytes b (snd (pushBytes a s)).
Proof.
  induction a as [| x a IH]; intros b s Hlo Hfit; [done |].
  simpl in *.
  destruct (Z.ltb_spec (blen s) BUF_SIZE) as [Hroom | Hfull]; [| lia].
  apply IH; simpl; lia.
Qed.

Lemma pushBytes_fits serial s :
  buf_ok s -> blen s + Z.of_nat (length serial) <= BUF_SIZE ->
  fst (pushBytes serial s) = [] /\
  live (snd (pushBytes serial s)) = live s ++ (to_uint8 <$> serial) /\
  blen (snd (pushBytes serial s)) = blen s + Z.of_nat (length serial).
Proof.
  intros Hok Hfit.
  destruct (pushBytes_spec serial s Hok) as (Hq & Hl & Hb & _ & _).
  rewrite Hq, Hl, Hb.
  rewrite drop_ge, take_ge by lia. split; [done |]. split; [done | lia].
Qed.

(** ** A frame at the front of the buffer *)

Lemma byte_at_take n l i : 0 <= i < Z.of_nat n -> byte_at (take n l) i = byte_at l i.
Proof. intros Hi. unfold byte_at. rewrite lookup_take_lt; [done | lia]. Qed.

Lemma byte_at_app_l l k i :
  0 <= i < Z.of_nat (length l) -> byte_at (l ++ k) i = byte_at l i.
Proof. intros Hi. unfold byte_at. rewrite lookup_app_l; [done | lia]. Qed.

Lemma byte_at_drop n l i :
  0 <= i -> byte_at (drop n l) i = byte_at l (Z.of_nat n + i).
Proof.
  intros Hi. unfold byte_at. rewrite lookup_drop. do 2 f_equal. lia.
Qed.

Lemma byte_at_front s f rest i :
  buf_ok s -> live s = f ++ rest -> 0 <= i < Z.of_nat (length f) ->
  byte_at (buf s) i = byte_at f i.
Proof.
  intros Hok Hlive Hi.
  pose proof (live_length s Hok) as Hlen.
  rewrite Hlive, length_app in Hlen.
  rewrite <- (byte_at_app_l f rest) by done.
  rewrite <- Hlive. unfold live. rewrite byte_at_take; [done | lia].
Qed.

Lemma valid_frame_hdr f i :
  take 4 f = HDR -> 0 <= i < 4 -> byte_at f i = byte_at HDR i.
Proof. intros <- Hi. by rewrite byte_at_take by lia. Qed.

Lemma valid_frame_tail f : valid_frame f -> tail_bad f = false.
Proof.
  intros (Hlen & _ & Htl & _). unfold tail_bad.
  rewrite <- Htl, !byte_at_drop by lia. simpl.
  by rewrite !Z.eqb_refl.
Qed.

Lemma frame_at_front s f rest :
  buf_ok s -> live s = f ++ rest -> length f = 30%nat -> take 4 f = HDR ->
  30 <= blen s /\
  find_hdr (buf s) (blen s) = 0 /\
  memcpy_frame (buf s) 0 = f /\
  live (after_take s 0) = rest /\
  buf_ok (after_take s 0).
Proof.
  intros Hok Hlive Hlen Hhdr.
  pose proof (live_length s Hok) as Hll.
  rewrite Hlive, length_app, Hlen in Hll.
  destruct Hok as [Hbuf [Hlo Hhi]]. unfold BUF_SIZE in Hhi.
  assert (buf_ok s) as Hok by done.
  assert (30 <= blen s) as Hblen by lia.
  split; [done |]. split.
  { apply find_hdr_front; [done |]. unfold hdr_at. simpl.
    rewrite !(byte_at_front s f rest) by (done || lia).
    rewrite !(valid_frame_hdr f) by (done || lia).
    by rewrite !Z.eqb_refl. }
  split.
  { unfold memcpy_frame. rewrite drop_0.
    assert (take 30 (live s) = f) as Hf
      by (by rewrite Hlive, take_app_length' by done).
    unfold live in Hf. rewrite take_take in Hf.
    by replace (30 `min` Z.to_nat (blen s))%nat with 30%nat in Hf by lia. }
  split.
  { unfold live, after_take. simpl.
    rewrite memmove_front_take by lia.
    rewrite take_drop_commute.
    replace (Z.to_nat (0 + 30) + Z.to_nat (blen s - (0 + 30)))%nat
      with (Z.to_nat (blen s)) by lia.
    fold (live s). rewrite Hlive. by rewrite drop_app_length' by done. }
  unfold buf_ok, blen_ok, BUF_SIZE, after_take. simpl.
  rewrite memmove_front_length by lia. lia.
Qed.

Section FrameFacts.

Variable millis_at : nat -> Z.

(** The iteration that finds a frame at offset 0. *)
Lemma parse_step_frame s f rest :
  buf_ok s -> live s = f ++ rest -> length f = 30%nat -> take 4 f = HDR ->
  parse_step millis_at s
  = (if tail_bad f then bump_errs (after_take s 0)
     else decode_frame millis_at f (after_take s 0), true).
Proof.
  intros Hok Hlive Hlen Hhdr.
  destruct (frame_at_front s f rest Hok Hlive Hlen Hhdr)
    as (Hblen & Hfind & Hcpy & _ & _).
  destruct (parse_step_cases millis_at s)
    as [[Hs _] | [(_ & Hh & _) | (_ & _ & ->)]]; [lia | congruence |].
  simpl. by rewrite Hfind, Hcpy.
Qed.

(** A buffer holding whole valid frames followed by fewer than 30 bytes:
    the pass accepts the frames one by one, front to back. *)
Lemma parseFrames_frames frames : forall s rest,
  buf_ok s -> live s = concat frames ++ rest ->
  Forall valid_frame frames -> (length rest < 30)%nat ->
  parseFrames millis_at s
  = foldl (fun st f => decode_frame millis_at f (after_take st 0)) s frames
  /\ live (parseFrames millis_at s) = rest.
Proof.
  induction frames as [| f frames IH]; intros s rest Hok Hlive Hvalid Hrest.
  - change (live s = rest) in Hlive.
    pose proof (live_length s Hok) as Hlen.
    rewrite Hlive in Hlen.
    destruct Hok as [_ [Hlo _]].
    rewrite parseFrames_short by lia. done.
  - apply Forall_cons in Hvalid as [Hf Hvalid].
    change (live s = (f ++ concat frames) ++ rest) in Hlive.
    rewrite <- app_assoc in Hlive.
    destruct Hf as (Hlen & Hhdr & Htl & Hbytes).
    assert (valid_frame f) as Hf by done.
    rewrite parseFrames_unfold.
    rewrite (parse_step_frame s f _ Hok Hlive Hlen Hhdr).
    rewrite (valid_frame_tail f Hf).
    destruct (frame_at_front s f _ Hok Hlive Hlen Hhdr)
      as (_ & _ & _ & Hlive' & Hok').
    simpl foldl. apply IH; try done.
Qed.

(** [decode_frame] reads and writes the tables only. *)
Lemma decode_frame_tables f s s' :
  same_tables s s' ->
  same_tables (decode_frame millis_at f s) (decode_frame millis_at f s').
Proof.
  intros (HT & Htr & Hseen & Hok & Herr & Htick).
  unfold same_tables, decode_frame, decode_target, millis. simpl.
  rewrite HT, Htr, Hseen, Hok, Herr, Htick. done.
Qed.

Lemma accept_all_tables frames : forall s s',
  same_tables s s' ->
  same_tables (accept_all millis_at frames s)
    (foldl (fun st f => decode_frame millis_at f (after_take st 0)) s' frames).
Proof.
  induction frames as [| f frames IH]; intros s s' Hsame; [done |].
  simpl. apply IH. apply decode_frame_tables.
  destruct Hsame as (HT & Htr & Hseen & Hok & Herr & Htick).
  unfold same_tables. simpl. rewrite Hseen. done.
Qed.

(** The Target Table after a frame has been decoded. *)
Lemma decode_frame_T f s :
  length (T s) = 3%nat ->
  T (decode_frame millis_at f s)
  = [ target_of f 0 (to_uint32 (millis_at (ticks s)));
      target_of f 1 (to_uint32 (millis_at (S (ticks s))));
      target_of f 2 (to_uint32 (millis_at (S (S (ticks s))))) ].
Proof.
  intros Hlen. destruct (T s) as [| t0 [| t1 [| t2 [| ? ?]]]] eqn:HT; try done.
  unfold decode_frame, decode_target, millis. simpl. rewrite HT. done.
Qed.

Lemma decode_frame_counters f s :
  framesSeen (decode_frame millis_at f s) = framesSeen s /\
  framesOK (decode_frame millis_at f s) = incr_ulong (framesOK s) /\
  errs (decode_frame millis_at f s) = errs s /\
  tr (decode_frame millis_at f s) = tr s /\
  ticks (decode_frame millis_at f s) = S (S (S (ticks s))).
Proof. done. Qed.

End FrameFacts.

(** ** Preservation along the loop *)

Section LoopFacts.

Variable millis_at : nat -> Z.

(** A property kept by every iteration holds when the pass returns. *)
Lemma parse_loop_invariant (P : State -> Prop) :
  (forall s s' again, parse_step millis_at s = (s', again) -> P s -> P s') ->
  forall fuel s r, parse_loop millis_at fuel s = Some r -> P s -> P r.
Proof.
  intros Hstep. induction fuel as [| fuel IH]; intros s r Hrun Hs; [done |].
  simpl in Hrun. destruct (parse_step millis_at s) as [s' again] eqn:Hs'.
  pose proof (Hstep _ _ _ Hs' Hs) as HP.
  destruct again; [by eapply IH | by simplify_eq].
Qed.

Lemma parseFrames_invariant (P : State -> Prop) :
  (forall s s' again, parse_step millis_at s = (s', again) -> P s -> P s') ->
  forall s, P s -> P (parseFrames millis_at s).
Proof.
  intros Hstep s Hs.
  apply (parse_loop_invariant P Hstep _ _ _ (parseFrames_returns millis_at s) Hs).
Qed.

Lemma parseFrames_blen_ok s : blen_ok s -> blen_ok (parseFrames millis_at s).
Proof.
  apply parseFrames_invariant. intros s0 s' again Hstep.
  apply (parse_step_blen millis_at _ _ _ Hstep).
Qed.

Lemma parseFrames_buf_ok s : buf_ok s -> buf_ok (parseFrames millis_at s).
Proof.
  apply parseFrames_invariant. intros s0 s' again Hstep.
  apply (parse_step_length millis_at _ _ _ Hstep).
Qed.

(** When a pass returns, fewer than 30 bytes are left in the buffer. *)
Lemma parseFrames_leaves_short s : blen (parseFrames millis_at s) < 30.
Proof.
  pose proof (parseFrames_returns millis_at s) as Hret.
  revert Hret. generalize (parseFrames millis_at s) as r.
  generalize (parse_fuel s) as fuel. intros fuel. revert s.
  induction fuel as [| fuel IH]; intros s r Hrun; [done |].
  simpl in Hrun.
  destruct (parse_step_cases millis_at s)
    as [[Hs Heq] | [(Hs & Hh & Heq) | (Hs & Hh & Heq)]];
    rewrite Heq in Hrun.
  - by simplify_eq.
  - simplify_eq. simpl. lia.
  - by apply IH in Hrun.
Qed.

Lemma run_blen_ok ops : forall m,
  blen_ok (snd m) -> blen_ok (snd (run millis_at ops m)).
Proof.
  induction ops as [| o ops IH]; intros [serial s] Hok; [done |].
  simpl. apply IH. destruct o; simpl in *.
  - done.
  - by apply pushBytes_blen_ok.
  - by apply parseFrames_blen_ok.
Qed.

Lemma run_buf_ok ops : forall m,
  buf_ok (snd m) -> buf_ok (snd (run millis_at ops m)).
Proof.
  induction ops as [| o ops IH]; intros [serial s] Hok; [done |].
  simpl. apply IH. destruct o; simpl in *.
  - done.
  - by apply pushBytes_buf_ok.
  - by apply parseFrames_buf_ok.
Qed.

End LoopFacts.

Lemma init_buf_ok : buf_ok init.
Proof. unfold buf_ok, blen_ok, BUF_SIZE. simpl. split; [done | lia]. Qed.

Lemma incr_ulong_below c : 0 <= c < 4294967295 -> incr_ulong c = c + 1.
Proof. intros Hc. unfold incr_ulong, to_uint32. apply Z.mod_small. lia. Qed.

(** * The field decoder *)

(** C1. For every 16-bit raw triple the decoder yields
    [x = x_raw - 32768] when bit 15 of [x_raw] is set and [x = - x_raw]
    otherwise, [y = y_raw - 32768], [v = - (v_raw - 32768)] when bit 15 of
    [v_raw] is set and [v = v_raw] otherwise, and the presence flag is
    false exactly when the three raw values are all zero. *)
Theorem field_decoding_exact xr yr vr :
  is_u16 xr -> is_u16 yr -> is_u16 vr ->
  decode_x xr = (if Z.testbit xr 15 then xr - 32768 else - xr) /\
  decode_y yr = yr - 32768 /\
  decode_v vr = (if Z.testbit vr 15 then - (vr - 32768) else vr) /\
  (decode_nz xr yr vr = false <-> xr = 0 /\ yr = 0 /\ vr = 0).
Proof.
  intros Hx Hy Hv. repeat split.
  - rewrite (decode_x_wide _ Hx). unfold x_wide.
    rewrite mask_high_bit. unfold is_u16 in Hx.
    destruct (Z.testbit xr 15); [done |]. by rewrite to_int32_id by lia.
  - by rewrite (decode_y_wide _ Hy).
  - rewrite (decode_v_wide _ Hv). unfold v_wide.
    rewrite mask_high_bit. unfold is_u16 in Hv.
    destruct (Z.testbit vr 15) eqn:Hbit; [| done].
    rewrite (high_bit_ge _ Hv) in Hbit. apply Z.leb_le in Hbit.
    by rewrite to_int32_id by lia.
  - unfold decode_nz in H. apply negb_false_iff in H.
    apply andb_true_iff in H as [H _]. apply andb_true_iff in H as [H _].
    by apply Z.eqb_eq.
  - unfold decode_nz in H. apply negb_false_iff in H.
    apply andb_true_iff in H as [H _]. apply andb_true_iff in H as [_ H].
    by apply Z.eqb_eq.
  - unfold decode_nz in H. apply negb_false_iff in H.
    apply andb_true_iff in H as [_ H]. by apply Z.eqb_eq.
  - intros (-> & -> & ->). done.
Qed.

Lemma field_decoding_exact_witness :
  is_u16 0x8005 /\ is_u16 0x8007 /\ is_u16 0x0003 /\
  (decode_x 0x8005 = (if Z.testbit 0x8005 15 then 0x8005 - 32768 else - 0x8005) /\
   decode_y 0x8007 = 0x8007 - 32768 /\
   decode_v 0x0003 = (if Z.testbit 0x0003 15 then - (0x0003 - 32768) else 0x0003) /\
   (decode_nz 0x8005 0x8007 0x0003 = false
    <-> 0x8005 = 0 /\ 0x8007 = 0 /\ 0x0003 = 0)).
Proof.
  assert (is_u16 0x8005) as Hx by (unfold is_u16; lia).
  assert (is_u16 0x8007) as Hy by (unfold is_u16; lia).
  assert (is_u16 0x0003) as Hv by (unfold is_u16; lia).
  exact (conj Hx (conj Hy (conj Hv
           (field_decoding_exact 0x8005 0x8007 0x0003 Hx Hy Hv)))).
Defined.

(** The decoder of a frame applies exactly these functions to the three
    little-endian fields of each sub-record. *)
Lemma decode_target_slot millis_at f k s :
  0 <= k < 3 -> length (T s) = 3%nat ->
  T (decode_target millis_at f k s) !! Z.to_nat k
  = Some (target_of f k (to_uint32 (millis_at (ticks s)))).
Proof.
  intros Hk Hlen. unfold decode_target, millis. simpl.
  rewrite list_lookup_insert_eq by lia.
  unfold target_of. by rewrite !Z.add_0_r.
Qed.

(** C9, as the code has it.  [x_raw = 0x8005] decodes to
    [0x8005 - 32768 = 5]; [x_raw = 0x8000] decodes to 0; [x_raw = 0x0005]
    decodes to -5. *)
Theorem decode_x_examples :
  decode_x 0x8005 = 5 /\ decode_x 0x8000 = 0 /\ decode_x 0x0005 = -5.
Proof. repeat split; reflexivity. Qed.

(** The first of the three values the specification lists for C9 is not
    what the decoder yields. *)
Lemma decode_x_examples_as_stated_fail :
  ~ (decode_x 0x8005 = 5 - 32768 /\ decode_x 0x8000 = 0 /\
     decode_x 0x0005 = -5).
Proof. intros [H _]. vm_compute in H. discriminate H. Qed.

(** C10. For every 16-bit raw triple the decoded values lie in
    [-32767, 32767] for [x], [-32768, 32767] for [y] and [-32767, 32767]
    for [v]; the values before the casts to [int16_t] lie in the same
    ranges, so each cast returns its argument unchanged. *)
Theorem decoded_values_fit_int16 xr yr vr :
  is_u16 xr -> is_u16 yr -> is_u16 vr ->
  (-32767 <= decode_x xr <= 32767 /\
   -32768 <= decode_y yr <= 32767 /\
   -32767 <= decode_v vr <= 32767) /\
  (decode_x xr = x_wide xr /\ decode_y yr = y_wide yr /\
   decode_v vr = v_wide vr) /\
  (to_int16 (x_wide xr) = x_wide xr /\ to_int16 (y_wide yr) = y_wide yr /\
   to_int16 (v_wide vr) = v_wide vr).
Proof.
  intros Hx Hy Hv.
  pose proof (x_wide_range _ Hx). pose proof (y_wide_range _ Hy).
  pose proof (v_wide_range _ Hv).
  rewrite (decode_x_wide _ Hx), (decode_y_wide _ Hy), (decode_v_wide _ Hv).
  repeat split; try lia; apply to_int16_id; lia.
Qed.

Lemma decoded_values_fit_int16_witness :
  is_u16 0xFFFF /\ is_u16 0 /\
  ((-32767 <= decode_x 0xFFFF <= 32767 /\
    -32768 <= decode_y 0 <= 32767 /\
    -32767 <= decode_v 0xFFFF <= 32767) /\
   (decode_x 0xFFFF = x_wide 0xFFFF /\ decode_y 0 = y_wide 0 /\
    decode_v 0xFFFF = v_wide 0xFFFF) /\
   (to_int16 (x_wide 0xFFFF) = x_wide 0xFFFF /\
    to_int16 (y_wide 0) = y_wide 0 /\
    to_int16 (v_wide 0xFFFF) = v_wide 0xFFFF)).
Proof.
  assert (is_u16 0xFFFF) as Hx by (unfold is_u16; lia).
  assert (is_u16 0) as Hy by (unfold is_u16; lia).
  exact (conj Hx (conj Hy (decoded_values_fit_int16 0xFFFF 0 0xFFFF Hx Hy Hx))).
Defined.

(** * Tail check *)

Lemma fmap_to_uint8_bytes l : Forall is_byte l -> to_uint8 <$> l = l.
Proof.
  induction 1 as [| b l Hb _ IH]; [done |].
  by rewrite fmap_cons, IH, to_uint8_id.
Qed.

Lemma memcpy_frame_length b h :
  0 <= h -> h + 30 <= Z.of_nat (length b) -> length (memcpy_frame b h) = 30%nat.
Proof.
  intros Hh Hfit. unfold memcpy_frame. rewrite length_take, length_drop. lia.
Qed.

(** The test of line 48 fails exactly when the last two bytes are not the
    tail constant. *)
Lemma tail_bad_iff f :
  length f = 30%nat -> tail_bad f = true <-> drop 28 f <> TAIL.
Proof.
  intros Hlen. unfold tail_bad.
  replace (byte_at f 28) with (byte_at (drop 28 f) 0)
    by (by rewrite byte_at_drop).
  replace (byte_at f 29) with (byte_at (drop 28 f) 1)
    by (by rewrite byte_at_drop).
  assert (length (drop 28 f) = 2%nat) as Hd by (rewrite length_drop; lia).
  destruct (drop 28 f) as [| a [| b [| ? ?]]]; try done.
  unfold byte_at, TAIL. simpl.
  destruct (Z.eqb_spec a 85) as [-> | Ha], (Z.eqb_spec b 204) as [-> | Hb];
    simpl; split; try done; intros _ [=]; done.
Qed.

(** C2. When the frame extracted by an iteration of the synchronizer does
    not end in the tail constant [{0x55,0xCC}], that iteration counts it in
    [framesSeen] and in [errs], leaves [framesOK] alone, leaves the Target
    Table exactly as it was, and goes on to scan the rest of the buffer.
    The counters are 32-bit [unsigned long]: each becomes
    [(old + 1) mod 2^32], which is [old + 1] below the last value. *)
Theorem tail_mismatch_discards_frame millis_at s h f :
  buf_ok s -> 30 <= blen s ->
  find_hdr (buf s) (blen s) = h -> 0 <= h ->
  memcpy_frame (buf s) h = f ->
  drop 28 f <> TAIL ->
  length f = 30%nat /\
  exists s', parse_step millis_at s = (s', true) /\
    framesSeen s' = (framesSeen s + 1) mod 4294967296 /\
    errs s' = (errs s + 1) mod 4294967296 /\
    framesOK s' = framesOK s /\
    T s' = T s /\
    (0 <= framesSeen s < 4294967295 -> framesSeen s' = framesSeen s + 1) /\
    (0 <= errs s < 4294967295 -> errs s' = errs s + 1).
Proof.
  intros [Hlen [Hlo Hhi]] Hblen Hfind Hh Hcpy Htail. unfold BUF_SIZE in Hhi.
  destruct (parse_step_cases millis_at s)
    as [[Hs _] | [(_ & Hnone & _) | (_ & Hrange & Hstep)]]; [lia | lia |].
  rewrite Hfind in Hrange.
  assert (length f = 30%nat) as Hf
    by (rewrite <- Hcpy; apply memcpy_frame_length; lia).
  split; [done |].
  apply (tail_bad_iff f Hf) in Htail.
  rewrite Hstep. simpl. rewrite Hfind, Hcpy, Htail.
  eexists. split; [done |].
  split; [done |]. split; [done |]. split; [done |]. split; [done |].
  split; intros Hc; apply incr_ulong_below, Hc.
Qed.

Lemma tail_mismatch_discards_frame_witness :
  let s := loaded frame_a_bad_tail in
  buf_ok s /\ 30 <= blen s /\ find_hdr (buf s) (blen s) = 0 /\ 0 <= 0 /\
  memcpy_frame (buf s) 0 = frame_a_bad_tail /\
  drop 28 frame_a_bad_tail <> TAIL /\
  (length frame_a_bad_tail = 30%nat /\
   exists s', parse_step millis_1000 s = (s', true) /\
     framesSeen s' = (framesSeen s + 1) mod 4294967296 /\
     errs s' = (errs s + 1) mod 4294967296 /\
     framesOK s' = framesOK s /\
     T s' = T s /\
     (0 <= framesSeen s < 4294967295 -> framesSeen s' = framesSeen s + 1) /\
     (0 <= errs s < 4294967295 -> errs s' = errs s + 1)).
Proof.
  intros s.
  assert (buf_ok s) as Hok
    by (split; [reflexivity | split; vm_compute; discriminate]).
  assert (30 <= blen s) as Hblen by (vm_compute; discriminate).
  assert (find_hdr (buf s) (blen s) = 0) as Hfind by reflexivity.
  assert (0 <= 0) as Hh by lia.
  assert (memcpy_frame (buf s) 0 = frame_a_bad_tail) as Hcpy by reflexivity.
  assert (drop 28 frame_a_bad_tail <> TAIL) as Htail
    by (intros H; vm_compute in H; discriminate H).
  exact (conj Hok (conj Hblen (conj Hfind (conj Hh (conj Hcpy (conj Htail
           (tail_mismatch_discards_frame millis_1000 s 0 frame_a_bad_tail
              Hok Hblen Hfind Hh Hcpy Htail))))))).
Defined.

(** The end-to-end form of C2: a fresh sketch that receives one frame with
    a corrupted tail and runs one pass ends with [framesSeen = 1],
    [errs = 1], [framesOK = 0] and an untouched Target Table. *)
Lemma corrupted_frame_pass millis_at f s :
  buf_ok s -> blen s = 0 ->
  length f = 30%nat -> take 4 f = HDR -> Forall is_byte f ->
  drop 28 f <> TAIL ->
  let s' := parseFrames millis_at (snd (pushBytes f s)) in
  framesSeen s' = incr_ulong (framesSeen s) /\
  errs s' = incr_ulong (errs s) /\
  framesOK s' = framesOK s /\
  T s' = T s.
Proof.
  intros Hok Hempty Hlen Hhdr Hbytes Htail.
  apply (tail_bad_iff f Hlen) in Htail.
  destruct (pushBytes_spec f s Hok) as (_ & Hl & _ & Hok1 & Hsame).
  destruct (pushBytes_fits f s Hok) as (_ & Hlive & Hb1);
    [unfold BUF_SIZE; lia |].
  set (s1 := snd (pushBytes f s)) in *.
  assert (live s = []) as Hnil by (unfold live; by rewrite Hempty).
  pose proof (fmap_to_uint8_bytes f Hbytes) as Hid.
  rewrite Hnil, Hid in Hlive. simpl in Hlive.
  rewrite <- (app_nil_r f) in Hlive.
  destruct (frame_at_front s1 f [] Hok1 Hlive Hlen Hhdr)
    as (_ & _ & _ & Hrest & Hok2).
  simpl. rewrite parseFrames_unfold.
  rewrite (parse_step_frame millis_at s1 f [] Hok1 Hlive Hlen Hhdr), Htail.
  pose proof (live_length _ Hok2) as Hl2. rewrite Hrest in Hl2.
  destruct Hok2 as [_ [Hlo2 _]].
  assert (blen (bump_errs (after_take s1 0)) < 30) as Hshort.
  { change (blen (bump_errs ?t)) with (blen t).
    change (length (@nil Z)) with 0%nat in Hl2. lia. }
  rewrite parseFrames_short by done.
  destruct Hsame as (HT & _ & Hseen & Hfok & Herr & _).
  simpl. by rewrite HT, Hseen, Hfok, Herr.
Qed.

(** * The buffer bound *)

(** C3. Whatever bytes arrive and however intake and synchronizer passes
    are interleaved, the buffer length stays between 0 and the capacity of
    128 bytes. *)
Theorem buffer_length_bounded millis_at ops serial s :
  blen_ok s -> blen_ok (snd (run millis_at ops (serial, s))).
Proof. intros Hok. by apply run_blen_ok. Qed.

Lemma buffer_length_bounded_witness :
  blen_ok init /\
  blen_ok (snd (run millis_1000
                  [Arrive (replicate 200 7); Intake; Synchronize;
                   Arrive frame_a; Intake; Synchronize]
                  ([], init))).
Proof.
  assert (blen_ok init) as Hinit by (split; vm_compute; discriminate).
  exact (conj Hinit (buffer_length_bounded millis_1000 _ [] init Hinit)).
Defined.

(** * Intake beyond the capacity *)

(** C6, as the code has it.  When the waiting bytes do not all fit, the
    bytes already in the buffer all stay, the oldest waiting bytes are
    appended until the buffer holds 128 bytes, and the newer waiting bytes
    are left unread in the receive queue. *)
Theorem intake_overflow_keeps_buffered serial s :
  buf_ok s -> BUF_SIZE < blen s + Z.of_nat (length serial) ->
  let room := Z.to_nat (BUF_SIZE - blen s) in
  live (snd (pushBytes serial s)) = live s ++ (to_uint8 <$> take room serial) /\
  fst (pushBytes serial s) = drop room serial /\
  fst (pushBytes serial s) <> [] /\
  blen (snd (pushBytes serial s)) = BUF_SIZE.
Proof.
  intros Hok Hover room.
  destruct (pushBytes_spec serial s Hok) as (Hq & Hl & Hb & _ & _).
  fold room in Hq, Hl.
  split; [done |]. split; [done |]. split.
  - rewrite Hq. intros Hnil. apply drop_nil_inv in Hnil.
    destruct Hok as [_ [Hlo Hhi]]. unfold room, BUF_SIZE in *. lia.
  - rewrite Hb. lia.
Qed.

Lemma intake_overflow_keeps_buffered_witness :
  let s := loaded (replicate 128 7) in
  buf_ok s /\ BUF_SIZE < blen s + Z.of_nat (length [9; 9]) /\
  (let room := Z.to_nat (BUF_SIZE - blen s) in
   live (snd (pushBytes [9; 9] s)) = live s ++ (to_uint8 <$> take room [9; 9]) /\
   fst (pushBytes [9; 9] s) = drop room [9; 9] /\
   fst (pushBytes [9; 9] s) <> [] /\
   blen (snd (pushBytes [9; 9] s)) = BUF_SIZE).
Proof.
  intros s.
  assert (buf_ok s) as Hok
    by (split; [reflexivity | split; vm_compute; discriminate]).
  assert (BUF_SIZE < blen s + Z.of_nat (length [9; 9])) as Hover
    by (vm_compute; reflexivity).
  exact (conj Hok (conj Hover
           (intake_overflow_keeps_buffered [9; 9] s Hok Hover))).
Defined.

(** C6 as stated fails: with a full buffer of sevens and one waiting byte 9,
    the buffer still holds the 128 sevens afterwards; the 9 has not been
    taken in. *)
Lemma intake_overflow_drops_oldest_fails :
  let s := loaded (replicate 128 7) in
  buf_ok s /\ BUF_SIZE < blen s + Z.of_nat (length [9]) /\
  ~ drops_oldest_first [9] s.
Proof.
  intros s. split; [apply pushBytes_buf_ok, init_buf_ok |].
  split; [vm_compute; reflexivity |].
  intros H. unfold drops_oldest_first in H.
  apply (f_equal (fun l => l !! 127%nat)) in H.
  vm_compute in H. discriminate H.
Qed.

(** * Whole frames in the buffer *)

Lemma valid_frames_concat frames :
  Forall valid_frame frames ->
  length (concat frames) = (30 * length frames)%nat /\
  Forall is_byte (concat frames).
Proof.
  induction 1 as [| f frames (Hlen & _ & _ & Hbytes) _ [IHlen IHbytes]];
    [done |].
  simpl. rewrite length_app, Hlen, IHlen. split; [lia |].
  by apply Forall_app.
Qed.

(** A fresh buffer receives up to four valid frames back to back; one pass
    then accepts them all, front to back, and empties the buffer. *)
Lemma frames_pass millis_at frames s :
  buf_ok s -> blen s = 0 -> Forall valid_frame frames ->
  (length frames <= 4)%nat ->
  let s1 := snd (pushBytes (concat frames) s) in
  fst (pushBytes (concat frames) s) = [] /\
  same_tables s s1 /\
  parseFrames millis_at s1
  = foldl (fun st f => decode_frame millis_at f (after_take st 0)) s1 frames /\
  buf_ok (parseFrames millis_at s1) /\
  blen (parseFrames millis_at s1) = 0.
Proof.
  intros Hok Hempty Hvalid Hn s1.
  destruct (valid_frames_concat frames Hvalid) as [Hlen Hbytes].
  destruct (pushBytes_spec (concat frames) s Hok) as (_ & _ & _ & Hok1 & Hsame).
  destruct (pushBytes_fits (concat frames) s Hok) as (Hq & Hlive & _);
    [unfold BUF_SIZE; lia |].
  fold s1 in Hok1, Hsame, Hlive.
  assert (live s = []) as Hnil by (unfold live; by rewrite Hempty).
  rewrite Hnil, (fmap_to_uint8_bytes _ Hbytes) in Hlive. simpl in Hlive.
  rewrite <- (app_nil_r (concat frames)) in Hlive.
  destruct (parseFrames_frames millis_at frames s1 [] Hok1 Hlive Hvalid)
    as [Hrun Hrest]; [simpl; lia |].
  pose proof (parseFrames_buf_ok millis_at s1 Hok1) as Hok2.
  pose proof (live_length _ Hok2) as Hl2. rewrite Hrest in Hl2.
  change (length (@nil Z)) with 0%nat in Hl2.
  repeat split; try done; try apply Hsame; try apply Hok2.
  destruct Hok2 as [_ [Hlo _]]. lia.
Qed.

Lemma accept_all_framesOK millis_at frames : forall s,
  framesOK (accept_all millis_at frames s)
  = Nat.iter (length frames) incr_ulong (framesOK s).
Proof.
  induction frames as [| f frames IH]; intros s; [done |].
  change (accept_all millis_at (f :: frames) s)
    with (accept_all millis_at frames
            (decode_frame millis_at f (bump_framesSeen s))).
  rewrite IH. simpl length. rewrite Nat.iter_succ_r. done.
Qed.

Lemma valid_frame_a : valid_frame frame_a.
Proof.
  repeat split; try reflexivity.
  unfold frame_a, HDR, TAIL. simpl.
  repeat (constructor; [unfold is_byte; lia |]). constructor.
Qed.

Lemma valid_frame_b : valid_frame frame_b.
Proof.
  repeat split; try reflexivity.
  unfold frame_b, HDR, TAIL. simpl.
  repeat (constructor; [unfold is_byte; lia |]). constructor.
Qed.

(** C5, as the code has it.  A fresh buffer takes in [N] valid frames sent
    back to back for [1 <= N <= 4] (four frames are the most that fit in
    128 bytes).  One pass then accepts all [N]: the tables and counters end
    as after accepting the frames one by one in the order of the input, so
    [framesOK] has been incremented [N] times (it reads [N] when it started
    at 0), and the buffer is empty. *)
Theorem back_to_back_frames_accepted millis_at frames s :
  buf_ok s -> blen s = 0 -> Forall valid_frame frames ->
  (1 <= length frames <= 4)%nat ->
  let s' := parseFrames millis_at (snd (pushBytes (concat frames) s)) in
  fst (pushBytes (concat frames) s) = [] /\
  same_tables (accept_all millis_at frames s) s' /\
  framesOK s' = Nat.iter (length frames) incr_ulong (framesOK s) /\
  (framesOK s = 0 -> framesOK s' = Z.of_nat (length frames)) /\
  blen s' = 0.
Proof.
  intros Hok Hempty Hvalid [Hn1 Hn4] s'.
  destruct (frames_pass millis_at frames s Hok Hempty Hvalid Hn4)
    as (Hq & Hsame & Hrun & _ & Hblen).
  fold s' in Hrun, Hblen.
  assert (same_tables (accept_all millis_at frames s) s') as Hacc
    by (rewrite Hrun; by apply accept_all_tables).
  assert (framesOK s' = Nat.iter (length frames) incr_ulong (framesOK s))
    as Hcount.
  { destruct Hacc as (_ & _ & _ & -> & _). apply accept_all_framesOK. }
  repeat split; try done; try apply Hacc.
  intros Hzero. rewrite Hcount, Hzero.
  destruct (length frames) as [| [| [| [| [| n]]]]]; try lia; reflexivity.
Qed.

Lemma back_to_back_frames_accepted_witness :
  let frames := [frame_a; frame_b; frame_a] in
  buf_ok init /\ blen init = 0 /\ Forall valid_frame frames /\
  (1 <= length frames <= 4)%nat /\
  (let s' := parseFrames millis_1000 (snd (pushBytes (concat frames) init)) in
   fst (pushBytes (concat frames) init) = [] /\
   same_tables (accept_all millis_1000 frames init) s' /\
   framesOK s' = Nat.iter (length frames) incr_ulong (framesOK init) /\
   (framesOK init = 0 -> framesOK s' = Z.of_nat (length frames)) /\
   blen s' = 0).
Proof.
  intros frames.
  assert (blen init = 0) as Hempty by reflexivity.
  assert (Forall valid_frame frames) as Hvalid.
  { unfold frames.
    repeat (apply Forall_cons_2;
            [first [exact valid_frame_a | exact valid_frame_b] |]).
    apply Forall_nil_2. }
  assert (1 <= length frames <= 4)%nat as Hn by (simpl; lia).
  assert (buf_ok init) as Hok
    by (split; [reflexivity | split; vm_compute; discriminate]).
  exact (conj Hok (conj Hempty (conj Hvalid (conj Hn
           (back_to_back_frames_accepted millis_1000 frames init
              Hok Hempty Hvalid Hn))))).
Defined.

(** C5 as stated fails from five frames on: of five valid frames sent back
    to back only the first 128 bytes enter the buffer, and one pass accepts
    four frames. *)
Lemma back_to_back_five_frames_fail :
  let frames := replicate 5 frame_a in
  let m := pushBytes (concat frames) init in
  Forall valid_frame frames /\
  framesOK (parseFrames millis_1000 (snd m)) = 4 /\
  framesOK (parseFrames millis_1000 (snd m)) <> Z.of_nat (length frames) /\
  length (fst m) = 22%nat.
Proof.
  intros frames m. split; [apply Forall_replicate, valid_frame_a |].
  assert (framesOK (parseFrames millis_1000 (snd m)) = 4) as H
    by (vm_compute; reflexivity).
  split; [done |]. split; [| vm_compute; reflexivity].
  rewrite H. simpl. lia.
Qed.

(** * A frame delivered in two parts *)

(** C8. A valid frame reaches an empty buffer either in two parts, cut at
    any point [k] and each followed by a pass, or whole, followed by one
    pass.  The two runs end in the same state (tables, counters, buffer and
    clock reads alike); no byte stays in the receive queue; exactly one
    frame has been seen and accepted ([framesSeen] and [framesOK] each
    become [(old + 1) mod 2^32], which is [old + 1] below the last value
    of the 32-bit counter), none rejected; the buffer is empty. *)
Theorem split_delivery_same_as_whole millis_at f k s :
  buf_ok s -> blen s = 0 -> valid_frame f -> (k <= 30)%nat ->
  let m1 := pushBytes (take k f) s in
  let s2 := parseFrames millis_at (snd m1) in
  let m3 := pushBytes (fst m1 ++ drop k f) s2 in
  let two_calls := parseFrames millis_at (snd m3) in
  let m := pushBytes f s in
  let one_call := parseFrames millis_at (snd m) in
  two_calls = one_call /\
  fst m3 = [] /\ fst m = [] /\
  framesSeen one_call = (framesSeen s + 1) mod 4294967296 /\
  framesOK one_call = (framesOK s + 1) mod 4294967296 /\
  errs one_call = errs s /\
  blen one_call = 0 /\
  (0 <= framesSeen s < 4294967295 -> framesSeen one_call = framesSeen s + 1) /\
  (0 <= framesOK s < 4294967295 -> framesOK one_call = framesOK s + 1).
Proof.
  intros Hok Hempty Hvalid Hk. cbv zeta.
  assert (Forall valid_frame [f]) as Hone by (by apply Forall_singleton).
  destruct (frames_pass millis_at [f] s Hok Hempty Hone)
    as (Hq & Hsame & Hrun & Hok' & Hblen'); [simpl; lia |].
  assert (concat [f] = f) as Hc by (simpl; apply app_nil_r).
  rewrite Hc in Hq, Hsame, Hrun, Hok', Hblen'.
  destruct Hvalid as (Hlen & Hhdr & Htl & Hbytes).
  assert (Z.of_nat (length (take k f)) = Z.of_nat k) as Hlk
    by (rewrite length_take; lia).
  destruct (pushBytes_fits (take k f) s Hok) as (Hq1 & _ & Hb1);
    [unfold BUF_SIZE; lia |].
  rewrite Hq1. simpl app.
  set (one_call := parseFrames millis_at (snd (pushBytes f s))) in *.
  assert (pushBytes (drop k f)
            (parseFrames millis_at (snd (pushBytes (take k f) s)))
          = (if decide (k = 30%nat) then ([], one_call) else pushBytes f s))
    as Hsecond.
  { destruct (decide (k = 30%nat)) as [-> | Hne].
    - (* the first part is the whole frame *)
      rewrite (take_ge f 30), (drop_ge f 30) by lia. done.
    - (* the first part is too short for a frame: the pass waits *)
      rewrite (parseFrames_short millis_at (snd (pushBytes (take k f) s)))
        by (rewrite Hb1; lia).
      rewrite <- pushBytes_app by (unfold BUF_SIZE; lia).
      by rewrite take_drop. }
  rewrite Hsecond.
  assert (parseFrames millis_at one_call = one_call) as Hagain
    by (apply parseFrames_short; lia).
  destruct Hsame as (HT & Htr & Hseen & Hfok & Herr & Htick).
  split; [by destruct (decide (k = 30%nat)) |].
  split; [by destruct (decide (k = 30%nat)) |].
  split; [done |].
  assert (framesSeen one_call = (framesSeen s + 1) mod 4294967296 /\
          framesOK one_call = (framesOK s + 1) mod 4294967296 /\
          errs one_call = errs s) as (Hs & Ha & He).
  { rewrite Hrun. simpl. by rewrite Hseen, Hfok, Herr. }
  split_and!; try done.
  - intros Hlim. rewrite Hs. apply (incr_ulong_below (framesSeen s) Hlim).
  - intros Hlim. rewrite Ha. apply (incr_ulong_below (framesOK s) Hlim).
Qed.

Lemma split_delivery_same_as_whole_witness :
  buf_ok init /\ blen init = 0 /\ valid_frame frame_a /\ (15 <= 30)%nat /\
  (let m1 := pushBytes (take 15 frame_a) init in
   let s2 := parseFrames millis_1000 (snd m1) in
   let m3 := pushBytes (fst m1 ++ drop 15 frame_a) s2 in
   let two_calls := parseFrames millis_1000 (snd m3) in
   let m := pushBytes frame_a init in
   let one_call := parseFrames millis_1000 (snd m) in
   two_calls = one_call /\
   fst m3 = [] /\ fst m = [] /\
   framesSeen one_call = (framesSeen init + 1) mod 4294967296 /\
   framesOK one_call = (framesOK init + 1) mod 4294967296 /\
   errs one_call = errs init /\
   blen one_call = 0 /\
   (0 <= framesSeen init < 4294967295 ->
    framesSeen one_call = framesSeen init + 1) /\
   (0 <= framesOK init < 4294967295 ->
    framesOK one_call = framesOK init + 1)).
Proof.
  assert (blen init = 0) as Hempty by reflexivity.
  assert (15 <= 30)%nat as Hk by lia.
  assert (buf_ok init) as Hok
    by (split; [reflexivity | split; vm_compute; discriminate]).
  exact (conj Hok (conj Hempty (conj valid_frame_a (conj Hk
           (split_delivery_same_as_whole millis_1000 frame_a 15 init
              Hok Hempty valid_frame_a Hk))))).
Defined.

(** * A header without its whole frame *)

(** With no header at an offset that leaves room for a whole frame, the
    pass keeps the last 29 bytes of the buffer, wherever a later header may
    start. *)
Lemma parseFrames_no_frame millis_at s :
  buf_ok s -> 30 <= blen s -> find_hdr (buf s) (blen s) = -1 ->
  live (parseFrames millis_at s) = drop (Z.to_nat (blen s - 29)) (live s) /\
  blen (parseFrames millis_at s) = 29.
Proof.
  intros [Hlen [Hlo Hhi]] Hblen Hnone. unfold BUF_SIZE in Hhi.
  rewrite parseFrames_unfold.
  destruct (parse_step_cases millis_at s)
    as [[Hs _] | [(_ & _ & ->) | (_ & Hrange & _)]]; [lia | | lia].
  split; [| done].
  unfold live. simpl.
  change (Z.to_nat 29) with 29%nat.
  replace 29%nat with (Z.to_nat 29) at 1 by done.
  rewrite memmove_front_take by lia.
  rewrite take_drop_commute. do 2 f_equal. lia.
Qed.

(** C7 on the code.  The buffer holds ten bytes of noise followed by a
    header and twenty bytes of its frame.  The scan stops at offset
    [blen - 30 = 0] and never reaches the header at offset 10, so the pass
    takes the no-header branch: it drops one byte, not ten, and the header
    is left at offset 9 behind nine bytes of noise. *)
Theorem partial_frame_noise_stays :
  let s := loaded noise_then_partial in
  let s' := parseFrames millis_1000 s in
  (blen s = 30 /\ take 4 (drop 10 (live s)) = HDR /\
   find_hdr (buf s) (blen s) = -1) /\
  (blen s' = 29 /\ live s' = drop 1 (live s) /\
   live s' <> drop 10 (live s) /\
   take 4 (drop 9 (live s')) = HDR /\ take 4 (live s') <> HDR).
Proof.
  intros s s'.
  assert (live s' = drop 1 (live s)) as Hlive by (vm_compute; reflexivity).
  split; [repeat split; vm_compute; reflexivity |].
  split; [vm_compute; reflexivity |].
  split; [exact Hlive |].
  split; [| split].
  - intros H. vm_compute in H. discriminate H.
  - vm_compute; reflexivity.
  - intros H. vm_compute in H. discriminate H.
Qed.

(** * Trails *)

(** *** The ring buffer *)

Lemma trail_put_ok now x y t : trail_ok t -> trail_ok (trail_put now x y t).
Proof.
  unfold trail_ok, trail_put, TRAIL_LEN. intros (HX & HY & Hh & Hn). simpl.
  rewrite !length_insert.
  pose proof (Z.rem_bound_pos (tr_head t + 1) 100).
  destruct (Z.ltb_spec (tr_n t) 100); repeat split; lia.
Qed.

Lemma trail_sample_ok now x y t : trail_ok t -> trail_ok (trail_sample now x y t).
Proof.
  intros Hok. unfold trail_sample.
  destruct (120 <=? _); [by apply trail_put_ok | done].
Qed.

Lemma Trail0_ok : trail_ok Trail0.
Proof. unfold trail_ok, TRAIL_LEN. simpl. repeat split; lia. Qed.

Lemma cell_at_insert_eq l i x :
  0 <= i < Z.of_nat (length l) -> cell_at (<[Z.to_nat i := x]> l) i = x.
Proof.
  intros Hi. unfold cell_at. rewrite list_lookup_insert_eq; [done | lia].
Qed.

Lemma cell_at_insert_ne l i j x :
  0 <= i -> 0 <= j -> i <> j ->
  cell_at (<[Z.to_nat i := x]> l) j = cell_at l j.
Proof.
  intros Hi Hj Hne. unfold cell_at. rewrite list_lookup_insert_ne; [done | lia].
Qed.

(** Index arithmetic of the ring. *)
Lemma ring_advance head k :
  0 <= head < 100 -> (Z.rem (head + 1) 100 - 1 + k) mod 100 = (head + k) mod 100.
Proof.
  intros Hh. rewrite Z.rem_mod_nonneg by lia.
  Z.div_mod_to_equations. lia.
Qed.

Lemma ring_cell_fresh head k :
  0 <= head < 100 -> -100 < k < 0 -> (head + k) mod 100 <> head.
Proof. intros Hh Hk. Z.div_mod_to_equations. lia. Qed.

Lemma ring_cell_head head :
  0 <= head < 100 -> head mod 100 = head /\ (head - 100) mod 100 = head.
Proof. intros Hh. Z.div_mod_to_equations. lia. Qed.

Lemma drop1_fmap_seqZ {A} (f : Z -> A) n :
  0 < n -> drop 1 (f <$> seqZ 0 n) = (fun j => f (1 + j)) <$> seqZ 0 (n - 1).
Proof.
  intros Hn. rewrite seqZ_cons by lia.
  rewrite fmap_cons, skipn_cons, drop_0.
  replace (Z.succ 0) with (1 + 0) by lia.
  replace (Z.pred n) with (n - 1) by lia.
  rewrite <- (fmap_add_seqZ 1 0 (n - 1)). by rewrite <- list_fmap_compose.
Qed.

(** Storing a sample appends it to the oldest-first reading; when the
    trail is full the oldest entry is the one overwritten. *)
Lemma trail_put_oldest_first now x y t :
  trail_ok t ->
  trail_oldest_first (trail_put now x y t)
  = (if tr_n t <? TRAIL_LEN then trail_oldest_first t
     else drop 1 (trail_oldest_first t)) ++ [(x, y)].
Proof.
  unfold trail_ok, TRAIL_LEN. intros (HX & HY & Hh & Hn).
  unfold trail_oldest_first, trail_put, TRAIL_LEN. simpl.
  destruct (Z.ltb_spec (tr_n t) 100) as [Hroom | Hfull].
  - (* room left: the new entry comes last *)
    rewrite seqZ_app by lia. rewrite fmap_app. f_equal.
    + apply list_fmap_ext. intros i j Hj.
      apply lookup_seqZ in Hj as [-> Hi].
      replace (Z.rem (tr_head t + 1) 100 - (tr_n t + 1) + (0 + Z.of_nat i))
        with (Z.rem (tr_head t + 1) 100 - 1 + (- tr_n t + Z.of_nat i)) by lia.
      rewrite ring_advance by lia.
      replace (tr_head t - tr_n t + (0 + Z.of_nat i))
        with (tr_head t + (- tr_n t + Z.of_nat i)) by lia.
      pose proof (ring_cell_fresh (tr_head t) (- tr_n t + Z.of_nat i)
                    ltac:(lia) ltac:(lia)) as Hne.
      pose proof (Z.mod_pos_bound (tr_head t + (- tr_n t + Z.of_nat i)) 100
                    ltac:(lia)) as Hb.
      by rewrite !cell_at_insert_ne by lia.
    + rewrite (seqZ_cons _ 1) by lia. rewrite seqZ_nil by lia.
      rewrite fmap_cons, fmap_nil.
      replace (Z.rem (tr_head t + 1) 100 - (tr_n t + 1) + (0 + tr_n t))
        with (Z.rem (tr_head t + 1) 100 - 1 + 0) by lia.
      rewrite ring_advance by lia. rewrite Z.add_0_r.
      rewrite (proj1 (ring_cell_head _ Hh)).
      by rewrite !cell_at_insert_eq by lia.
  - (* full: the oldest entry goes, the new one comes last *)
    assert (tr_n t = 100) as -> by lia.
    rewrite drop1_fmap_seqZ by lia.
    replace 100 with (99 + 1) at 1 by lia.
    rewrite (seqZ_app 0 99 1) by lia. rewrite fmap_app.
    change (100 - 1) with 99. f_equal.
    + apply list_fmap_ext. intros i j Hj.
      apply lookup_seqZ in Hj as [-> Hi].
      replace (Z.rem (tr_head t + 1) 100 - 100 + (0 + Z.of_nat i))
        with (Z.rem (tr_head t + 1) 100 - 1 + (-99 + Z.of_nat i)) by lia.
      rewrite ring_advance by lia.
      replace (tr_head t - 100 + (1 + (0 + Z.of_nat i)))
        with (tr_head t + (-99 + Z.of_nat i)) by lia.
      pose proof (ring_cell_fresh (tr_head t) (-99 + Z.of_nat i)
                    ltac:(lia) ltac:(lia)) as Hne.
      pose proof (Z.mod_pos_bound (tr_head t + (-99 + Z.of_nat i)) 100
                    ltac:(lia)) as Hb.
      by rewrite !cell_at_insert_ne by lia.
    + rewrite (seqZ_cons _ 1) by lia. rewrite seqZ_nil by lia.
      rewrite fmap_cons, fmap_nil.
      replace (Z.rem (tr_head t + 1) 100 - 100 + (0 + 99))
        with (Z.rem (tr_head t + 1) 100 - 1 + 0) by lia.
      rewrite ring_advance by lia. rewrite Z.add_0_r.
      rewrite (proj1 (ring_cell_head _ Hh)).
      by rewrite !cell_at_insert_eq by lia.
Qed.

(** Whatever samples are stored on a fresh trail, it holds the last
    [TRAIL_LEN] of them, oldest first, and [n] never exceeds [TRAIL_LEN]. *)
Lemma trail_puts_history ps :
  trail_ok (trail_puts ps Trail0) /\
  tr_n (trail_puts ps Trail0) = Z.min (Z.of_nat (length ps)) TRAIL_LEN /\
  trail_oldest_first (trail_puts ps Trail0) = drop (length ps - 100) ps.
Proof.
  induction ps as [| p ps (Hok & Hn & Hhist)] using rev_ind.
  - split; [apply Trail0_ok |]. done.
  - unfold trail_puts in *. rewrite foldl_snoc.
    set (t := foldl _ Trail0 ps) in *.
    split; [by apply trail_put_ok |]. split.
    + rewrite length_app. unfold trail_put, TRAIL_LEN in *. simpl.
      destruct (Z.ltb_spec (tr_n t) 100); lia.
    + rewrite (trail_put_oldest_first _ _ _ _ Hok), Hhist.
      rewrite length_app. unfold TRAIL_LEN in *. simpl length.
      rewrite <- surjective_pairing.
      destruct (Z.ltb_spec (tr_n t) 100) as [Hroom | Hfull].
      * replace (length ps - 100)%nat with 0%nat by lia.
        replace (length ps + 1 - 100)%nat with 0%nat by lia.
        by rewrite !drop_0.
      * rewrite drop_drop.
        rewrite drop_app_le by lia. do 2 f_equal. lia.
Qed.

(** Once the trail is full, the snapshot loop of the page reads it oldest
    first. *)
Lemma trail_snapshot_full t :
  trail_ok t -> tr_n t = TRAIL_LEN -> trail_snapshot t = trail_oldest_first t.
Proof.
  unfold trail_ok, TRAIL_LEN. intros (_ & _ & Hh & _) Hfull.
  unfold trail_snapshot, trail_oldest_first, TRAIL_LEN.
  apply list_fmap_ext. intros i j Hj.
  apply lookup_seqZ in Hj as [-> Hi].
  rewrite Z.rem_mod_nonneg by lia. rewrite Hfull.
  replace (tr_head t - 100 + (0 + Z.of_nat i))
    with (tr_head t + (0 + Z.of_nat i) + (-1) * 100) by lia.
  by rewrite Z_mod_plus_full.
Qed.

(** The recorder keeps every trail well-shaped. *)
Lemma sampleTrails_trails_ok millis_at s :
  Forall trail_ok (tr s) -> Forall trail_ok (tr (sampleTrails millis_at s)).
Proof.
  intros Hok. unfold sampleTrails, millis.
  assert (forall now k st, Forall trail_ok (tr st) ->
            Forall trail_ok (tr (sample_slot now k st))) as Hslot.
  { intros now k st Hst. unfold sample_slot.
    destruct (tr st !! Z.to_nat k) as [t |] eqn:Ht; [| done].
    destruct (T st !! Z.to_nat k) as [tg |]; [| done].
    simpl. apply Forall_insert; [done |].
    apply trail_sample_ok. by eapply Forall_lookup_1. }
  by do 3 apply Hslot.
Qed.

(** C4 on the code.  A fresh sketch decodes [frame_a] (target 0 at
    [x = 5], [y = 7]) and takes its first trail sample.  The trail of slot 0
    then holds one entry, stored in cell 0, with [head = 1].  The
    oldest-first reading of the specification and the History block of the
    page both find it; the snapshot loop of line 73 starts at index
    [head] instead of [head - n] and hands out the never-written cell 1. *)
Theorem snapshot_of_partly_filled_trail :
  let s := sampleTrails millis_1000 (parseFrames millis_1000 (loaded frame_a)) in
  exists t,
    tr s !! 0%nat = Some t /\
    tr_n t = 1 /\ tr_head t = 1 /\
    cell_at (tr_X t) 0 = 5 /\ cell_at (tr_Y t) 0 = 7 /\
    trail_oldest_first t = [(5, 7)] /\
    history_Y t = [7] /\
    trail_snapshot t = [(0, 0)] /\
    trail_snapshot t <> trail_oldest_first t.
Proof.
  intros s.
  exists (mkTrail (<[0%nat := 5]> (replicate 100 0))
                  (<[0%nat := 7]> (replicate 100 0)) 1 1 1000).
  split; [vm_compute; reflexivity |].
  do 7 (split; [vm_compute; reflexivity |]).
  intros H. vm_compute in H. discriminate H.
Qed.

(** * Further properties of the sketch *)

(** ** Little-endian fields and the sign conventions *)

Lemma byte_shift_disjoint lo hi :
  is_byte lo -> 0 <= hi -> Z.land lo (Z.shiftl hi 8) = 0.
Proof.
  intros [Hlo Hlt] Hhi. apply Z.bits_inj'. intros n Hn.
  rewrite Z.land_spec, Z.bits_0, Z.shiftl_spec by lia.
  destruct (Z.lt_ge_cases n 8) as [Hsmall | Hbig].
  - rewrite (Z.testbit_neg_r hi) by lia. apply andb_false_r.
  - destruct (decide (lo = 0)) as [-> | Hne]; [by rewrite Z.bits_0 |].
    rewrite (Z.bits_above_log2 lo n); [done | lia |].
    assert (Z.log2 lo < 8) by (apply Z.log2_lt_pow2; lia). lia.
Qed.

(** X1. [le_u16] reads the value [lo + 256 * hi] from two adjacent bytes,
    and that value gives both bytes back. *)
Theorem le_u16_little_endian p i :
  is_byte (byte_at p i) -> is_byte (byte_at p (i + 1)) ->
  le_u16 p i = byte_at p i + 256 * byte_at p (i + 1) /\
  is_u16 (le_u16 p i) /\
  le_u16 p i mod 256 = byte_at p i /\
  le_u16 p i / 256 = byte_at p (i + 1).
Proof.
  intros Hlo Hhi.
  assert (le_u16 p i = byte_at p i + 256 * byte_at p (i + 1)) as Hval.
  { unfold le_u16.
    rewrite (to_uint16_id (byte_at p i)) by (unfold is_byte, is_u16 in *; lia).
    rewrite (to_uint16_id (byte_at p (i + 1)))
      by (unfold is_byte, is_u16 in *; lia).
    rewrite <- Z.lxor_lor by (apply byte_shift_disjoint; unfold is_byte in *; lia).
    rewrite <- Z.add_nocarry_lxor
      by (apply byte_shift_disjoint; unfold is_byte in *; lia).
    rewrite Z.shiftl_mul_pow2 by lia. change (2 ^ 8) with 256.
    rewrite to_uint16_id by (unfold is_byte, is_u16 in *; lia). lia. }
  rewrite Hval. unfold is_byte, is_u16 in *.
  split; [done |]. split; [lia |].
  split; Z.div_mod_to_equations; lia.
Qed.

Lemma le_u16_little_endian_witness :
  is_byte (byte_at [0x05; 0x80] 0) /\ is_byte (byte_at [0x05; 0x80] (0 + 1)) /\
  (le_u16 [0x05; 0x80] 0
   = byte_at [0x05; 0x80] 0 + 256 * byte_at [0x05; 0x80] (0 + 1) /\
   is_u16 (le_u16 [0x05; 0x80] 0) /\
   le_u16 [0x05; 0x80] 0 mod 256 = byte_at [0x05; 0x80] 0 /\
   le_u16 [0x05; 0x80] 0 / 256 = byte_at [0x05; 0x80] (0 + 1)).
Proof.
  assert (is_byte (byte_at [0x05; 0x80] 0)) as Hlo
    by (split; vm_compute; (discriminate || reflexivity)).
  assert (is_byte (byte_at [0x05; 0x80] (0 + 1))) as Hhi
    by (split; vm_compute; (discriminate || reflexivity)).
  exact (conj Hlo (conj Hhi (le_u16_little_endian [0x05; 0x80] 0 Hlo Hhi))).
Defined.

Lemma low15 r : is_u16 r ->
  Z.land r 0x7FFF = if 32768 <=? r then r - 32768 else r.
Proof.
  intros [Hlo Hhi]. change 0x7FFF with (Z.ones 15).
  rewrite Z.land_ones by lia. change (2 ^ 15) with 32768.
  destruct (Z.leb_spec 32768 r); Z.div_mod_to_equations; lia.
Qed.

(** X2. Both signed fields are sign-and-magnitude numbers whose magnitude is
    the low 15 bits of the raw value; bit 15 set means a positive [x] but a
    negative [v], so the same raw value decodes to opposite numbers. *)
Theorem sign_magnitude_fields r :
  is_u16 r ->
  decode_x r = (if Z.testbit r 15 then 1 else -1) * Z.land r 0x7FFF /\
  decode_v r = (if Z.testbit r 15 then -1 else 1) * Z.land r 0x7FFF /\
  decode_v r = - decode_x r.
Proof.
  intros Hr.
  rewrite (decode_x_wide _ Hr), (decode_v_wide _ Hr), (low15 _ Hr).
  unfold x_wide, v_wide. rewrite mask_high_bit, (high_bit_ge _ Hr).
  unfold is_u16 in Hr.
  destruct (Z.leb_spec 32768 r); rewrite to_int32_id by lia; lia.
Qed.

Lemma sign_magnitude_fields_witness :
  is_u16 0x8005 /\
  (decode_x 0x8005
   = (if Z.testbit 0x8005 15 then 1 else -1) * Z.land 0x8005 0x7FFF /\
   decode_v 0x8005
   = (if Z.testbit 0x8005 15 then -1 else 1) * Z.land 0x8005 0x7FFF /\
   decode_v 0x8005 = - decode_x 0x8005).
Proof.
  assert (is_u16 0x8005) as Hr by (split; vm_compute; (discriminate || reflexivity)).
  exact (conj Hr (sign_magnitude_fields 0x8005 Hr)).
Defined.

(** X3. Different raw values decode to different numbers, with one
    exception: the two raw zeros [0x0000] and [0x8000] of the
    sign-and-magnitude fields [x] and [v] both decode to 0.  [y] has no
    such pair. *)
Theorem decoding_distinguishes_raw_values a b :
  is_u16 a -> is_u16 b ->
  (decode_y a = decode_y b -> a = b) /\
  (decode_x a = decode_x b ->
   a = b \/ (a mod 32768 = 0 /\ b mod 32768 = 0 /\ decode_x a = 0)) /\
  (decode_v a = decode_v b ->
   a = b \/ (a mod 32768 = 0 /\ b mod 32768 = 0 /\ decode_v a = 0)).
Proof.
  intros Ha Hb.
  rewrite !decode_y_wide, !decode_x_wide, !decode_v_wide by done.
  unfold y_wide, x_wide, v_wide.
  rewrite !mask_high_bit, (high_bit_ge _ Ha), (high_bit_ge _ Hb).
  unfold is_u16 in *.
  destruct (Z.leb_spec 32768 a), (Z.leb_spec 32768 b);
    rewrite ?to_int32_id by lia;
    (split; [lia |]); split; intros Heq;
    (destruct (decide (a = b)); [by left | right]);
    Z.div_mod_to_equations; lia.
Qed.

Lemma decoding_distinguishes_raw_values_witness :
  is_u16 0 /\ is_u16 0x8000 /\
  ((decode_y 0 = decode_y 0x8000 -> 0 = 0x8000) /\
   (decode_x 0 = decode_x 0x8000 ->
    0 = 0x8000 \/ (0 mod 32768 = 0 /\ 0x8000 mod 32768 = 0 /\ decode_x 0 = 0)) /\
   (decode_v 0 = decode_v 0x8000 ->
    0 = 0x8000 \/ (0 mod 32768 = 0 /\ 0x8000 mod 32768 = 0 /\ decode_v 0 = 0))).
Proof.
  assert (is_u16 0) as Ha by (split; vm_compute; (discriminate || reflexivity)).
  assert (is_u16 0x8000) as Hb by (split; vm_compute; (discriminate || reflexivity)).
  exact (conj Ha (conj Hb (decoding_distinguishes_raw_values 0 0x8000 Ha Hb))).
Defined.

(** ** Intake *)

(** X4. [pushBytes] loses and duplicates nothing: the bytes in the buffer
    followed by the bytes still waiting are, before and after the call,
    the same sequence; every stored byte is a value 0..255; the tables and
    counters are not touched. *)
Theorem intake_conserves_bytes serial s :
  buf_ok s ->
  live (snd (pushBytes serial s)) ++ (to_uint8 <$> fst (pushBytes serial s))
  = live s ++ (to_uint8 <$> serial) /\
  (Forall is_byte (live s) -> Forall is_byte (live (snd (pushBytes serial s)))) /\
  same_tables s (snd (pushBytes serial s)) /\
  buf_ok (snd (pushBytes serial s)).
Proof.
  intros Hok.
  destruct (pushBytes_spec serial s Hok) as (Hq & Hl & _ & Hok' & Hsame).
  rewrite Hq, Hl. split.
  - by rewrite <- app_assoc, <- fmap_app, take_drop.
  - split; [| done]. intros Hbytes. apply Forall_app. split; [done |].
    apply Forall_fmap, Forall_forall. intros b _. apply to_uint8_byte.
Qed.

Lemma intake_conserves_bytes_witness :
  let s := loaded (replicate 100 7) in
  let serial := replicate 50 300 in
  buf_ok s /\
  (live (snd (pushBytes serial s)) ++ (to_uint8 <$> fst (pushBytes serial s))
   = live s ++ (to_uint8 <$> serial) /\
   (Forall is_byte (live s) -> Forall is_byte (live (snd (pushBytes serial s)))) /\
   same_tables s (snd (pushBytes serial s)) /\
   buf_ok (snd (pushBytes serial s))).
Proof.
  intros s serial.
  assert (buf_ok s) as Hok
    by (split; [reflexivity | split; vm_compute; discriminate]).
  exact (conj Hok (intake_conserves_bytes serial s Hok)).
Defined.

(** ** Resynchronization *)

Lemma hdr_at_live s j :
  buf_ok s -> 0 <= j -> j + 4 <= blen s ->
  hdr_at (buf s) j = true <-> take 4 (drop (Z.to_nat j) (live s)) = HDR.
Proof.
  intros Hok Hj Hfit.
  pose proof (live_length s Hok) as Hlen.
  assert (forall k, 0 <= k < 4 ->
            byte_at (buf s) (j + k)
            = byte_at (drop (Z.to_nat j) (live s)) k) as Hcell.
  { intros k Hk. rewrite byte_at_drop by lia. unfold live.
    rewrite byte_at_take by lia. f_equal. lia. }
  unfold hdr_at.
  replace (byte_at (buf s) j) with (byte_at (buf s) (j + 0))
    by (f_equal; lia).
  rewrite !Hcell by lia.
  assert (4 <= length (drop (Z.to_nat j) (live s)))%nat as Hd
    by (rewrite length_drop; lia).
  destruct (drop (Z.to_nat j) (live s)) as [| a [| b [| c [| d rest]]]];
    simpl in Hd; try lia.
  unfold byte_at, HDR. simpl.
  destruct (Z.eqb_spec a 170) as [-> | ?], (Z.eqb_spec b 255) as [-> | ?],
    (Z.eqb_spec c 3) as [-> | ?], (Z.eqb_spec d 0) as [-> | ?];
    simpl; split; try done; intros [=]; done.
Qed.

(** A frame-sized block behind [g]: the scan stops at its header when no
    earlier offset holds one. *)
Lemma frame_at_offset s g f rest :
  buf_ok s -> live s = g ++ f ++ rest -> aligned_frame f ->
  (forall j, (j < length g)%nat -> take 4 (drop j (live s)) <> HDR) ->
  let h := Z.of_nat (length g) in
  find_hdr (buf s) (blen s) = h /\
  h + 30 <= blen s /\
  memcpy_frame (buf s) h = f /\
  live (after_take s h) = rest /\
  buf_ok (after_take s h).
Proof.
  intros Hok Hlive [Hlen Hhdr] Hnone h.
  pose proof (live_length s Hok) as Hll.
  rewrite Hlive, !length_app, Hlen in Hll.
  destruct Hok as [Hbuf [Hlo Hhi]]. unfold BUF_SIZE in Hhi.
  assert (buf_ok s) as Hok by done.
  assert (blen s = h + 30 + Z.of_nat (length rest)) as Hblen by lia.
  assert (hdr_at (buf s) h = true) as Hhit.
  { apply hdr_at_live; [done | lia | lia |].
    unfold h. rewrite Nat2Z.id, Hlive, drop_app_length.
    by rewrite take_app_le, Hhdr by lia. }
  assert (find_hdr (buf s) (blen s) = h) as Hfind.
  { unfold find_hdr.
    destruct (scan_hdr_spec (buf s) (Z.to_nat (blen s - 30 + 1)) 0)
      as [[_ Hall] | (Hrange & Hfound & Hbefore)].
    - rewrite Hall in Hhit by lia. done.
    - set (h' := scan_hdr (buf s) 0 (Z.to_nat (blen s - 30 + 1))) in *.
      destruct (Z.lt_trichotomy h' h) as [Hless | [Heq | Hmore]]; [| done |].
      + apply hdr_at_live in Hfound; [| done | lia | lia].
        exfalso. apply (Hnone (Z.to_nat h')); [lia | done].
      + rewrite Hbefore in Hhit by lia. done. }
  split; [done |]. split; [lia |]. split.
  { unfold memcpy_frame.
    assert (take 30 (drop (Z.to_nat h) (live s)) = f) as Hf.
    { unfold h. rewrite Nat2Z.id, Hlive, drop_app_length.
      by rewrite take_app_length' by done. }
    unfold live in Hf. rewrite take_drop_commute, take_take in Hf.
    rewrite take_drop_commute.
    by replace ((Z.to_nat h + 30) `min` Z.to_nat (blen s))%nat
      with (Z.to_nat h + 30)%nat in Hf by lia. }
  split.
  { unfold live, after_take. simpl.
    rewrite memmove_front_take by lia.
    rewrite take_drop_commute.
    replace (Z.to_nat (h + 30) + Z.to_nat (blen s - (h + 30)))%nat
      with (Z.to_nat (blen s)) by lia.
    fold (live s). rewrite Hlive.
    replace (Z.to_nat (h + 30)) with (length g + length f)%nat by lia.
    rewrite <- drop_drop, drop_app_length. by rewrite drop_app_length. }
  unfold buf_ok, blen_ok, BUF_SIZE, after_take. simpl.
  rewrite memmove_front_length by lia. lia.
Qed.

(** X5. Noise followed by a valid frame: when no header occurs before the
    frame, the iteration removes exactly the noise and the frame from the
    front of the buffer, counts the frame as seen and accepted
    ([framesSeen] and [framesOK] each become [(old + 1) mod 2^32]), and
    writes its three sub-records into the Target Table. *)
Theorem noise_then_frame_resyncs millis_at s g f rest :
  buf_ok s -> live s = g ++ f ++ rest -> valid_frame f ->
  (forall j, (j < length g)%nat -> take 4 (drop j (live s)) <> HDR) ->
  length (T s) = 3%nat ->
  exists s1,
    parse_step millis_at s = (s1, true) /\
    live s1 = rest /\
    framesSeen s1 = (framesSeen s + 1) mod 4294967296 /\
    framesOK s1 = (framesOK s + 1) mod 4294967296 /\
    errs s1 = errs s /\
    T s1 = [ target_of f 0 (to_uint32 (millis_at (ticks s)));
             target_of f 1 (to_uint32 (millis_at (S (ticks s))));
             target_of f 2 (to_uint32 (millis_at (S (S (ticks s))))) ].
Proof.
  intros Hok Hlive Hvalid Hnone HT.
  assert (aligned_frame f) as Hal by (split; apply Hvalid).
  destruct (frame_at_offset s g f rest Hok Hlive Hal Hnone)
    as (Hfind & Hfit & Hcpy & Hrest & _).
  destruct (parse_step_cases millis_at s)
    as [[Hs _] | [(_ & Hh & _) | (_ & _ & Hstep)]]; [lia | lia |].
  rewrite Hstep. cbv zeta. rewrite Hfind, Hcpy, (valid_frame_tail f Hvalid).
  eexists. split; [done |].
  split; [exact Hrest |].
  rewrite decode_frame_T by done. done.
Qed.

Lemma noise_then_frame_resyncs_witness :
  let g := [1; 2; 3; 4; 5] in
  let s := loaded (g ++ frame_a ++ [0xAA]) in
  buf_ok s /\ live s = g ++ frame_a ++ [0xAA] /\ valid_frame frame_a /\
  (forall j, (j < length g)%nat -> take 4 (drop j (live s)) <> HDR) /\
  length (T s) = 3%nat /\
  exists s1,
    parse_step millis_1000 s = (s1, true) /\
    live s1 = [0xAA] /\
    framesSeen s1 = (framesSeen s + 1) mod 4294967296 /\
    framesOK s1 = (framesOK s + 1) mod 4294967296 /\
    errs s1 = errs s /\
    T s1 = [ target_of frame_a 0 (to_uint32 (millis_1000 (ticks s)));
             target_of frame_a 1 (to_uint32 (millis_1000 (S (ticks s))));
             target_of frame_a 2 (to_uint32 (millis_1000 (S (S (ticks s))))) ].
Proof.
  intros g s.
  assert (buf_ok s) as Hok
    by (split; [reflexivity | split; vm_compute; discriminate]).
  assert (live s = g ++ frame_a ++ [0xAA]) as Hlive by (vm_compute; reflexivity).
  assert (forall j, (j < length g)%nat -> take 4 (drop j (live s)) <> HDR)
    as Hnone.
  { intros j Hj.
    do 5 (destruct j as [| j]; [intros H; vm_compute in H; discriminate H |]).
    simpl in Hj. lia. }
  assert (length (T s) = 3%nat) as HT by reflexivity.
  exact (conj Hok (conj Hlive (conj valid_frame_a (conj Hnone (conj HT
           (noise_then_frame_resyncs millis_1000 s g frame_a [0xAA]
              Hok Hlive valid_frame_a Hnone HT)))))).
Defined.

(** ** A pass over header-aligned blocks *)

(** [n] increments of a 32-bit counter add [n] modulo 2^32. *)
Lemma iter_incr_ulong n c :
  is_u32 c -> Nat.iter n incr_ulong c = (c + Z.of_nat n) mod 4294967296.
Proof.
  intros Hc. induction n as [| n IH].
  - simpl. rewrite Z.add_0_r. symmetry. apply Z.mod_small. exact Hc.
  - rewrite Nat2Z.inj_succ. simpl. rewrite IH.
    unfold incr_ulong, to_uint32. rewrite Zplus_mod_idemp_l.
    f_equal. lia.
Qed.

Lemma judge_frame_counters millis_at s f :
  framesSeen (judge_frame millis_at s f) = incr_ulong (framesSeen s) /\
  errs (judge_frame millis_at s f)
  = (if tail_bad f then incr_ulong (errs s) else errs s) /\
  framesOK (judge_frame millis_at s f)
  = (if tail_bad f then framesOK s else incr_ulong (framesOK s)) /\
  (tail_bad f = true -> T (judge_frame millis_at s f) = T s).
Proof. unfold judge_frame. by destruct (tail_bad f). Qed.

Lemma parseFrames_aligned millis_at frames : forall s rest,
  buf_ok s -> live s = concat frames ++ rest ->
  Forall aligned_frame frames -> (length rest < 30)%nat ->
  parseFrames millis_at s = foldl (judge_frame millis_at) s frames /\
  live (parseFrames millis_at s) = rest.
Proof.
  induction frames as [| f frames IH]; intros s rest Hok Hlive Hal Hrest.
  - change (live s = rest) in Hlive.
    pose proof (live_length s Hok) as Hlen. rewrite Hlive in Hlen.
    destruct Hok as [_ [Hlo _]].
    rewrite parseFrames_short by lia. done.
  - apply Forall_cons in Hal as [[Hlen Hhdr] Hal].
    change (live s = (f ++ concat frames) ++ rest) in Hlive.
    rewrite <- app_assoc in Hlive.
    rewrite parseFrames_unfold.
    rewrite (parse_step_frame millis_at s f _ Hok Hlive Hlen Hhdr).
    destruct (frame_at_front s f _ Hok Hlive Hlen Hhdr)
      as (_ & _ & _ & Hlive' & Hok').
    change (foldl (judge_frame millis_at) s (f :: frames))
      with (foldl (judge_frame millis_at) (judge_frame millis_at s f) frames).
    fold (judge_frame millis_at s f).
    assert (buf_ok (judge_frame millis_at s f) /\
            live (judge_frame millis_at s f) = concat frames ++ rest)
      as [Hok1 Hlive1]
      by (unfold judge_frame; destruct (tail_bad f); split; done).
    by apply IH.
Qed.

Lemma foldl_judge_counters millis_at frames : forall s,
  let s' := foldl (judge_frame millis_at) s frames in
  framesSeen s' = Nat.iter (length frames) incr_ulong (framesSeen s) /\
  errs s' = Nat.iter (length (List.filter tail_bad frames)) incr_ulong (errs s) /\
  framesOK s'
  = Nat.iter (length (List.filter (fun f => negb (tail_bad f)) frames))
             incr_ulong (framesOK s).
Proof.
  induction frames as [| f frames IH]; intros s; [done |].
  cbv zeta.
  change (foldl (judge_frame millis_at) s (f :: frames))
    with (foldl (judge_frame millis_at) (judge_frame millis_at s f) frames).
  destruct (IH (judge_frame millis_at s f)) as (Hs & He & Ha).
  destruct (judge_frame_counters millis_at s f) as (Hs1 & He1 & Ha1 & _).
  rewrite Hs, He, Ha, Hs1, He1, Ha1. simpl List.filter. simpl length.
  destruct (tail_bad f); simpl length; rewrite ?Nat.iter_succ_r; done.
Qed.

(** X6. A buffer holding header-aligned 30-byte blocks followed by fewer
    than 30 bytes: one pass consumes every block in order.  Each block is
    counted in [framesSeen]; a block with a bad tail is counted in [errs]
    and does not stop the pass, the others are counted in [framesOK]; the
    trailing bytes stay in the buffer.  A counter that started as a 32-bit
    value ends as that value plus the number of blocks counted in it,
    modulo 2^32. *)
Theorem pass_judges_every_block millis_at frames s rest :
  buf_ok s -> live s = concat frames ++ rest ->
  Forall aligned_frame frames -> (length rest < 30)%nat ->
  let s' := parseFrames millis_at s in
  s' = foldl (judge_frame millis_at) s frames /\
  live s' = rest /\
  framesSeen s' = Nat.iter (length frames) incr_ulong (framesSeen s) /\
  errs s' = Nat.iter (length (List.filter tail_bad frames)) incr_ulong (errs s) /\
  framesOK s'
  = Nat.iter (length (List.filter (fun f => negb (tail_bad f)) frames))
             incr_ulong (framesOK s) /\
  (is_u32 (framesSeen s) ->
   framesSeen s'
   = (framesSeen s + Z.of_nat (length frames)) mod 4294967296) /\
  (is_u32 (errs s) ->
   errs s'
   = (errs s + Z.of_nat (length (List.filter tail_bad frames)))
     mod 4294967296) /\
  (is_u32 (framesOK s) ->
   framesOK s'
   = (framesOK s
      + Z.of_nat (length (List.filter (fun f => negb (tail_bad f)) frames)))
     mod 4294967296).
Proof.
  intros Hok Hlive Hal Hrest s'.
  destruct (parseFrames_aligned millis_at frames s rest Hok Hlive Hal Hrest)
    as [Hrun Hlive'].
  split; [done |]. split; [done |].
  pose proof (foldl_judge_counters millis_at frames s) as Hcount.
  cbv zeta in Hcount. rewrite <- Hrun in Hcount. fold s' in Hcount.
  destruct Hcount as (Hs & He & Ha).
  split_and!; try done.
  - intros Hu. rewrite Hs. by apply iter_incr_ulong.
  - intros Hu. rewrite He. by apply iter_incr_ulong.
  - intros Hu. rewrite Ha. by apply iter_incr_ulong.
Qed.

Lemma aligned_frame_a_bad_tail : aligned_frame frame_a_bad_tail.
Proof. split; reflexivity. Qed.

Lemma pass_judges_every_block_witness :
  let frames := [frame_a_bad_tail; frame_b; frame_a_bad_tail] in
  let rest := [0xAA; 0xFF] in
  let s := loaded (concat frames ++ rest) in
  buf_ok s /\ live s = concat frames ++ rest /\
  Forall aligned_frame frames /\ (length rest < 30)%nat /\
  (let s' := parseFrames millis_1000 s in
   s' = foldl (judge_frame millis_1000) s frames /\
   live s' = rest /\
   framesSeen s' = Nat.iter (length frames) incr_ulong (framesSeen s) /\
   errs s' = Nat.iter (length (List.filter tail_bad frames)) incr_ulong (errs s) /\
   framesOK s'
   = Nat.iter (length (List.filter (fun f => negb (tail_bad f)) frames))
              incr_ulong (framesOK s) /\
   (is_u32 (framesSeen s) ->
    framesSeen s'
    = (framesSeen s + Z.of_nat (length frames)) mod 4294967296) /\
   (is_u32 (errs s) ->
    errs s'
    = (errs s + Z.of_nat (length (List.filter tail_bad frames)))
      mod 4294967296) /\
   (is_u32 (framesOK s) ->
    framesOK s'
    = (framesOK s
       + Z.of_nat (length (List.filter (fun f => negb (tail_bad f)) frames)))
      mod 4294967296)).
Proof.
  intros frames rest s.
  assert (buf_ok s) as Hok
    by (split; [reflexivity | split; vm_compute; discriminate]).
  assert (live s = concat frames ++ rest) as Hlive by (vm_compute; reflexivity).
  assert (Forall aligned_frame frames) as Hal.
  { unfold frames.
    repeat (apply Forall_cons_2; [split; reflexivity |]). apply Forall_nil_2. }
  assert (length rest < 30)%nat as Hrest by (simpl; lia).
  exact (conj Hok (conj Hlive (conj Hal (conj Hrest
           (pass_judges_every_block millis_1000 frames s rest
              Hok Hlive Hal Hrest))))).
Defined.

(** ** A pass that finds no frame *)

(** X7. When no offset that leaves room for a whole frame holds the header,
    the pass keeps exactly the last 29 bytes of the buffer (so a header
    that has begun to arrive is never cut) and changes neither the tables
    nor the counters. *)
Theorem pass_without_frame_keeps_29 millis_at s :
  buf_ok s -> 30 <= blen s ->
  (forall j, (j <= Z.to_nat (blen s - 30))%nat ->
             take 4 (drop j (live s)) <> HDR) ->
  let s' := parseFrames millis_at s in
  live s' = drop (Z.to_nat (blen s - 29)) (live s) /\
  blen s' = 29 /\
  same_tables s s'.
Proof.
  intros Hok Hblen Hnone s'.
  assert (find_hdr (buf s) (blen s) = -1) as Hfind.
  { unfold find_hdr.
    destruct (scan_hdr_spec (buf s) (Z.to_nat (blen s - 30 + 1)) 0)
      as [[Hn _] | (Hrange & Hfound & _)]; [done |].
    apply hdr_at_live in Hfound; [| done | lia | lia].
    exfalso. by apply (Hnone (Z.to_nat (scan_hdr (buf s) 0
                                 (Z.to_nat (blen s - 30 + 1))))); [lia |]. }
  destruct (parseFrames_no_frame millis_at s Hok Hblen Hfind) as [Hlive Hb].
  split; [done |]. split; [done |].
  unfold s'. rewrite parseFrames_unfold.
  destruct (parse_step_cases millis_at s)
    as [[Hs _] | [(_ & _ & ->) | (_ & Hrange & _)]]; [lia | | lia].
  done.
Qed.

Lemma pass_without_frame_keeps_29_witness :
  let s := loaded noise_then_partial in
  buf_ok s /\ 30 <= blen s /\
  (forall j, (j <= Z.to_nat (blen s - 30))%nat ->
             take 4 (drop j (live s)) <> HDR) /\
  (let s' := parseFrames millis_1000 s in
   live s' = drop (Z.to_nat (blen s - 29)) (live s) /\
   blen s' = 29 /\
   same_tables s s').
Proof.
  intros s.
  assert (buf_ok s) as Hok
    by (split; [reflexivity | split; vm_compute; discriminate]).
  assert (30 <= blen s) as Hblen by (vm_compute; discriminate).
  assert (forall j, (j <= Z.to_nat (blen s - 30))%nat ->
                    take 4 (drop j (live s)) <> HDR) as Hnone.
  { intros j Hj. change (Z.to_nat (blen s - 30)) with 0%nat in Hj.
    destruct j as [| j]; [| lia].
    intros H. vm_compute in H. discriminate H. }
  exact (conj Hok (conj Hblen (conj Hnone
           (pass_without_frame_keeps_29 millis_1000 s Hok Hblen Hnone)))).
Defined.

(** ** After a pass *)

(** X8. Whatever the buffer held, a pass leaves fewer than 30 bytes in it.
    A second pass without new bytes therefore changes nothing, and the next
    [pushBytes] finds room for at least 99 bytes: intake cannot stall on a
    full buffer. *)
Theorem pass_leaves_room millis_at s serial :
  buf_ok s ->
  let s' := parseFrames millis_at s in
  0 <= blen s' < 30 /\
  buf_ok s' /\
  parseFrames millis_at s' = s' /\
  (length (fst (pushBytes serial s')) <= length serial - 99)%nat.
Proof.
  intros Hok s'.
  pose proof (parseFrames_leaves_short millis_at s) as Hshort.
  pose proof (parseFrames_buf_ok millis_at s Hok) as Hok'.
  fold s' in Hshort, Hok'.
  destruct (pushBytes_spec serial s' Hok') as (Hq & _).
  destruct Hok' as [Hlen [Hlo Hhi]].
  split; [lia |]. split; [done |].
  split; [by apply parseFrames_short |].
  rewrite Hq, length_drop. unfold BUF_SIZE. lia.
Qed.

Lemma pass_leaves_room_witness :
  let s := loaded (replicate 128 7) in
  let serial := replicate 200 9 in
  buf_ok s /\
  (let s' := parseFrames millis_1000 s in
   0 <= blen s' < 30 /\
   buf_ok s' /\
   parseFrames millis_1000 s' = s' /\
   (length (fst (pushBytes serial s')) <= length serial - 99)%nat).
Proof.
  intros s serial.
  assert (buf_ok s) as Hok
    by (split; [reflexivity | split; vm_compute; discriminate]).
  exact (conj Hok (pass_leaves_room millis_1000 s serial Hok)).
Defined.

(** ** Invariants of the whole state machine *)

Lemma pushBytes_tables serial : forall s, same_tables s (snd (pushBytes serial s)).
Proof.
  induction serial as [| b rest IH]; intros s; [done |].
  simpl. destruct (blen s <? BUF_SIZE); [| done].
  destruct (IH (set_buffer (<[Z.to_nat (blen s) := to_uint8 b]> (buf s))
                           (blen s + 1) s)) as (? & ? & ? & ? & ? & ?).
  done.
Qed.

Lemma sample_slot_frame now k s :
  T (sample_slot now k s) = T s /\
  framesSeen (sample_slot now k s) = framesSeen s /\
  framesOK (sample_slot now k s) = framesOK s /\
  errs (sample_slot now k s) = errs s /\
  buf (sample_slot now k s) = buf s /\
  blen (sample_slot now k s) = blen s /\
  ticks (sample_slot now k s) = ticks s.
Proof.
  unfold sample_slot.
  by destruct (tr s !! Z.to_nat k), (T s !! Z.to_nat k).
Qed.

(** The recorder writes the trails and reads the clock once; nothing
    else. *)
Lemma sampleTrails_frame millis_at s :
  T (sampleTrails millis_at s) = T s /\
  framesSeen (sampleTrails millis_at s) = framesSeen s /\
  framesOK (sampleTrails millis_at s) = framesOK s /\
  errs (sampleTrails millis_at s) = errs s /\
  buf (sampleTrails millis_at s) = buf s /\
  blen (sampleTrails millis_at s) = blen s /\
  ticks (sampleTrails millis_at s) = S (ticks s).
Proof.
  unfold sampleTrails, millis.
  set (now := to_uint32 _).
  destruct (sample_slot_frame now 2 (sample_slot now 1 (sample_slot now 0 (tick s))))
    as (-> & -> & -> & -> & -> & -> & ->).
  destruct (sample_slot_frame now 1 (sample_slot now 0 (tick s)))
    as (-> & -> & -> & -> & -> & -> & ->).
  destruct (sample_slot_frame now 0 (tick s))
    as (-> & -> & -> & -> & -> & -> & ->).
  done.
Qed.

Lemma do_acts_invariant millis_at (P : State -> Prop) :
  (forall serial s, P s -> P (snd (pushBytes serial s))) ->
  (forall s, P s -> P (parseFrames millis_at s)) ->
  (forall s, P s -> P (sampleTrails millis_at s)) ->
  (forall s, P s -> P (tick s)) ->
  forall acts m, P (snd m) -> P (snd (do_acts millis_at acts m)).
Proof.
  intros Hpush Hparse Hsample Htick.
  induction acts as [| a acts IH]; intros [serial s] Hs; [done |].
  simpl. apply IH. destruct a; simpl in *; auto.
Qed.

Lemma incr_ulong_sum a b :
  incr_ulong (to_uint32 (a + b)) = to_uint32 (incr_ulong a + b) /\
  incr_ulong (to_uint32 (a + b)) = to_uint32 (a + incr_ulong b).
Proof.
  unfold incr_ulong, to_uint32.
  rewrite Zplus_mod_idemp_l.
  rewrite (Zplus_mod_idemp_l (a + 1) b), (Zplus_mod_idemp_r (b + 1) a).
  split; f_equal; lia.
Qed.

Lemma parse_step_counters millis_at s s' again :
  parse_step millis_at s = (s', again) -> counters_ok s -> counters_ok s'.
Proof.
  unfold counters_ok.
  destruct (parse_step_cases millis_at s)
    as [[Hs ->] | [(Hs & Hh & ->) | (Hs & Hh & ->)]]; intros [= <- <-] Hc.
  - done.
  - done.
  - cbv zeta. destruct (tail_bad _).
    + change (framesSeen s = to_uint32 (framesOK s + errs s)) in Hc.
      change (incr_ulong (framesSeen s)
              = to_uint32 (framesOK s + incr_ulong (errs s))).
      rewrite Hc. apply incr_ulong_sum.
    + change (incr_ulong (framesSeen s)
              = to_uint32 (incr_ulong (framesOK s) + errs s)).
      rewrite Hc. apply incr_ulong_sum.
Qed.

(** X9. Every frame the synchronizer extracts is either accepted or
    counted as a decode error: [framesSeen = framesOK + errs] (in the
    32-bit arithmetic of the counters) holds at start-up and after any
    sequence of byte arrivals, [pushBytes], [parseFrames], [sampleTrails]
    and clock reads. *)
Theorem seen_is_accepted_plus_errors millis_at acts serial s :
  counters_ok s -> counters_ok (snd (do_acts millis_at acts (serial, s))).
Proof.
  intros Hc. apply (do_acts_invariant millis_at counters_ok); try done.
  - intros rx s0 H0. unfold counters_ok in *.
    destruct (pushBytes_tables rx s0) as (_ & _ & -> & -> & -> & _). done.
  - intros s0. apply parseFrames_invariant. intros s1 s2 again.
    apply parse_step_counters.
  - intros s0 H0. unfold counters_ok in *.
    destruct (sampleTrails_frame millis_at s0) as (_ & -> & -> & -> & _). done.
Qed.

Lemma seen_is_accepted_plus_errors_witness :
  let acts := [A_arrive (frame_a_bad_tail ++ frame_b); A_pushBytes;
               A_parseFrames; A_sampleTrails; A_millis;
               A_arrive frame_a; A_pushBytes; A_parseFrames] in
  counters_ok init /\
  counters_ok (snd (do_acts millis_1000 acts ([], init))).
Proof.
  intros acts.
  assert (counters_ok init) as Hc by reflexivity.
  exact (conj Hc (seen_is_accepted_plus_errors millis_1000 acts [] init Hc)).
Defined.

Lemma to_int16_i16 z : is_i16 (to_int16 z).
Proof.
  unfold is_i16, to_int16.
  pose proof (Z.mod_pos_bound (z + 32768) 65536). lia.
Qed.

Lemma to_uint32_u32 z : is_u32 (to_uint32 z).
Proof. apply Z.mod_pos_bound. lia. Qed.

Lemma target_of_typed f k now : is_u32 now -> target_typed (target_of f k now).
Proof.
  intros Hnow. unfold target_typed, target_of, decode_x, decode_y, decode_v.
  simpl. repeat split; try apply Hnow;
    repeat match goal with |- context [if ?c then _ else _] => destruct c end;
    apply to_int16_i16.
Qed.

Lemma memmove_front_bytes b off cnt :
  Forall is_byte b -> Forall is_byte (memmove_front b off cnt).
Proof.
  intros Hb. unfold memmove_front. apply Forall_app.
  split; [apply Forall_take, Forall_drop, Hb | apply Forall_drop, Hb].
Qed.

Lemma trail_sample_typed now x y t :
  trail_typed t -> is_i16 x -> is_i16 y -> is_u32 now ->
  trail_typed (trail_sample now x y t).
Proof.
  intros (Hok & HX & HY & Hlast) Hx Hy Hnow. unfold trail_sample.
  destruct (120 <=? _); [| done].
  split; [by apply trail_put_ok |].
  unfold trail_put. simpl.
  split; [by apply Forall_insert |]. split; [by apply Forall_insert | done].
Qed.

Lemma sample_slot_typed now k s :
  is_u32 now -> sketch_typed s -> sketch_typed (sample_slot now k s).
Proof.
  intros Hnow Hs. unfold sample_slot.
  destruct (tr s !! Z.to_nat k) as [t |] eqn:Ht; [| done].
  destruct (T s !! Z.to_nat k) as [tg |] eqn:Htg; [| done].
  destruct Hs as (HTl & HT & Htrl & Htr & Hseen & Hacc & Herr & Hok & Hby).
  unfold sketch_typed. simpl. rewrite length_insert.
  split_and!; try done.
  apply Forall_insert; [done |].
  pose proof (Forall_lookup_1 _ _ _ _ HT Htg) as (Hx & Hy & _).
  apply trail_sample_typed; try done.
  by eapply Forall_lookup_1.
Qed.

Lemma parse_step_typed millis_at s s' again :
  parse_step millis_at s = (s', again) -> sketch_typed s -> sketch_typed s'.
Proof.
  intros Hstep Hs.
  assert (buf_ok s') as Hok'
    by (eapply parse_step_length; [done | apply Hs]).
  destruct Hs as (HTl & HT & Htrl & Htr & Hseen & Hacc & Herr & Hok & Hby).
  revert Hstep Hok'.
  destruct (parse_step_cases millis_at s)
    as [[Hs ->] | [(Hs & Hh & ->) | (Hs & Hh & ->)]]; intros [= <- <-] Hok'.
  - done.
  - unfold sketch_typed. simpl.
    split_and!; try done. by apply memmove_front_bytes.
  - cbv zeta in *. set (h := find_hdr (buf s) (blen s)) in *.
    assert (Forall is_byte (buf (after_take s h))) as Hby'
      by (by apply memmove_front_bytes).
    destruct (tail_bad (memcpy_frame (buf s) h)).
    + unfold sketch_typed. simpl.
      split_and!; try done; apply to_uint32_u32.
    + unfold sketch_typed.
      destruct (decode_frame_counters millis_at (memcpy_frame (buf s) h)
                  (after_take s h)) as (-> & -> & -> & -> & _).
      rewrite (decode_frame_T millis_at _ (after_take s h)) by done.
      destruct (decode_frame_buffer millis_at (memcpy_frame (buf s) h)
                  (after_take s h)) as [Hbuf _].
      rewrite Hbuf.
      split_and!; try done; try apply to_uint32_u32.
      repeat (apply Forall_cons_2; [apply target_of_typed, to_uint32_u32 |]).
      apply Forall_nil_2.
Qed.

Lemma init_typed : sketch_typed init.
Proof.
  assert (is_u32 0) as H0 by (unfold is_u32; lia).
  assert (target_typed Target0) as Htg
    by (unfold target_typed, is_i16; simpl; split_and!; (done || lia)).
  assert (trail_typed Trail0) as Htr.
  { split; [apply Trail0_ok |].
    split; [apply Forall_replicate; unfold is_i16; lia |].
    split; [apply Forall_replicate; unfold is_i16; lia | done]. }
  split; [reflexivity |].
  split; [apply (Forall_replicate target_typed 3 Target0 Htg) |].
  split; [reflexivity |].
  split; [apply (Forall_replicate trail_typed 3 Trail0 Htr) |].
  split; [exact H0 |]. split; [exact H0 |]. split; [exact H0 |].
  split; [apply init_buf_ok |].
  apply (Forall_replicate is_byte 128 0). unfold is_byte. lia.
Qed.

(** X10. The state keeps the shapes and value ranges of its C
    declarations along every run: three targets and three trails, trail
    arrays of 100 cells with [0 <= head < 100] and [0 <= n <= 100], a
    128-byte buffer with [0 <= blen <= 128], every coordinate and velocity
    an [int16_t] value, every byte 0..255, every counter and timestamp
    below 2^32. *)
Theorem state_stays_well_typed millis_at acts serial s :
  sketch_typed s -> sketch_typed (snd (do_acts millis_at acts (serial, s))).
Proof.
  intros Hs. apply (do_acts_invariant millis_at sketch_typed); try done.
  - intros rx s0 (HTl & HT & Htrl & Htr & Hseen & Hacc & Herr & Hok & Hby).
    destruct (pushBytes_tables rx s0) as (ET & Etr & Es & Ea & Ee & _).
    unfold sketch_typed. rewrite ET, Etr, Es, Ea, Ee.
    split_and!; try done; [by apply pushBytes_buf_ok |].
    clear -Hby. revert s0 Hby.
    induction rx as [| b rx IH]; intros s0 Hby; [done |].
    simpl. destruct (blen s0 <? BUF_SIZE); [| done].
    apply IH. simpl. apply Forall_insert; [done | apply to_uint8_byte].
  - intros s0. apply parseFrames_invariant. intros s1 s2 again.
    apply parse_step_typed.
  - intros s0 H0. unfold sampleTrails, millis.
    do 3 (apply sample_slot_typed; [apply to_uint32_u32 |]). done.
Qed.

Lemma state_stays_well_typed_witness :
  let acts := [A_arrive (replicate 200 999); A_pushBytes; A_parseFrames;
               A_arrive (frame_a ++ frame_b); A_pushBytes; A_parseFrames;
               A_sampleTrails; A_millis] in
  sketch_typed init /\
  sketch_typed (snd (do_acts millis_1000 acts ([], init))).
Proof.
  intros acts.
  exact (conj init_typed
           (state_stays_well_typed millis_1000 acts [] init init_typed)).
Defined.

(** ** The trail recorder *)

Lemma elapsed_wraps last e :
  is_u32 last -> is_u32 e -> to_uint32 (to_uint32 (last + e) - last) = e.
Proof.
  unfold is_u32, to_uint32. intros Hl He.
  Z.div_mod_to_equations. lia.
Qed.

(** X11. The 120 ms cadence of the recorder depends only on the time that
    has really passed since the last sample, also when [millis()] has
    wrapped round in between: with [e] milliseconds elapsed ([e < 2^32]),
    a sample is stored exactly when [e >= 120]. *)
Theorem sample_cadence_survives_rollover x y e t :
  is_u32 (tr_last t) -> is_u32 e ->
  let now := to_uint32 (tr_last t + e) in
  trail_sample now x y t = (if 120 <=? e then trail_put now x y t else t).
Proof.
  intros Hl He now. unfold trail_sample, now.
  by rewrite elapsed_wraps.
Qed.

Lemma sample_cadence_survives_rollover_witness :
  let t := mkTrail (replicate 100 0) (replicate 100 0) 0 0 4294967286 in
  is_u32 (tr_last t) /\ is_u32 125 /\
  (let now := to_uint32 (tr_last t + 125) in
   trail_sample now 5 7 t = (if 120 <=? 125 then trail_put now 5 7 t else t)).
Proof.
  intros t.
  assert (is_u32 (tr_last t)) as Hl by (unfold is_u32; simpl; lia).
  assert (is_u32 125) as He by (unfold is_u32; lia).
  exact (conj Hl (conj He (sample_cadence_survives_rollover 5 7 125 t Hl He))).
Defined.

Lemma sample_slot_tr now j s i :
  tr (sample_slot now j s) !! i
  = if decide (i = Z.to_nat j)
    then match tr s !! i, T s !! i with
         | Some t, Some tg => Some (trail_sample now (t_x tg) (t_y tg) t)
         | o, _ => o
         end
    else tr s !! i.
Proof.
  unfold sample_slot.
  destruct (decide (i = Z.to_nat j)) as [-> | Hne].
  - destruct (tr s !! Z.to_nat j) as [t |] eqn:Ht; [| by rewrite Ht].
    destruct (T s !! Z.to_nat j) as [tg |]; [| by rewrite Ht].
    simpl. apply list_lookup_insert_eq. by eapply lookup_lt_Some.
  - destruct (tr s !! Z.to_nat j) as [t |]; [| done].
    destruct (T s !! Z.to_nat j) as [tg |]; [| done].
    simpl. by apply list_lookup_insert_ne.
Qed.

(** X12. One call of [sampleTrails] treats each of the three slots on its
    own: slot [k] gets the current [(x, y)] of target [k] as its newest
    trail entry when its 120 ms are up (the oldest entry going when the
    trail is full) and is left alone otherwise.  The presence flag of the
    target plays no part.  The Target Table, the counters and the buffer
    are not touched. *)
Theorem recorder_appends_current_position millis_at s k t tg :
  (k < 3)%nat -> tr s !! k = Some t -> T s !! k = Some tg -> trail_ok t ->
  let now := to_uint32 (millis_at (ticks s)) in
  let s' := sampleTrails millis_at s in
  let t' := trail_sample now (t_x tg) (t_y tg) t in
  tr s' !! k = Some t' /\
  (120 <= to_uint32 (now - tr_last t) ->
   trail_oldest_first t'
   = (if tr_n t <? TRAIL_LEN then trail_oldest_first t
      else drop 1 (trail_oldest_first t)) ++ [(t_x tg, t_y tg)] /\
   tr_last t' = now) /\
  (to_uint32 (now - tr_last t) < 120 -> t' = t) /\
  T s' = T s /\ buf s' = buf s /\ blen s' = blen s /\
  framesSeen s' = framesSeen s /\ framesOK s' = framesOK s /\
  errs s' = errs s.
Proof.
  intros Hk Ht Htg Hok now s' t'.
  destruct (sampleTrails_frame millis_at s) as (HT & Hs & Ha & He & Hb & Hl & _).
  fold s' in HT, Hs, Ha, He, Hb, Hl.
  split.
  { unfold s', sampleTrails, millis. fold now.
    rewrite !sample_slot_tr.
    destruct (sample_slot_frame now 1 (sample_slot now 0 (tick s)))
      as (-> & _).
    destruct (sample_slot_frame now 0 (tick s)) as (-> & _).
    rewrite ?sample_slot_tr.
    change (T (tick s)) with (T s). change (tr (tick s)) with (tr s).
    destruct k as [| [| [| k]]]; [| | | lia]; simpl; by rewrite ?Ht, ?Htg. }
  split.
  { intros Hdue. unfold t', trail_sample.
    destruct (Z.leb_spec 120 (to_uint32 (now - tr_last t))); [| lia].
    split; [by apply trail_put_oldest_first | done]. }
  split; [| done].
  intros Hearly. unfold t', trail_sample.
  destruct (Z.leb_spec 120 (to_uint32 (now - tr_last t))); [lia | done].
Qed.

Lemma recorder_appends_current_position_witness :
  let s := parseFrames millis_1000 (loaded frame_a) in
  let t := Trail0 in
  let tg := mkTarget true 5 7 3 1000 in
  (0 < 3)%nat /\ tr s !! 0%nat = Some t /\ T s !! 0%nat = Some tg /\
  trail_ok t /\
  (let now := to_uint32 (millis_1000 (ticks s)) in
   let s' := sampleTrails millis_1000 s in
   let t' := trail_sample now (t_x tg) (t_y tg) t in
   tr s' !! 0%nat = Some t' /\
   (120 <= to_uint32 (now - tr_last t) ->
    trail_oldest_first t'
    = (if tr_n t <? TRAIL_LEN then trail_oldest_first t
       else drop 1 (trail_oldest_first t)) ++ [(t_x tg, t_y tg)] /\
    tr_last t' = now) /\
   (to_uint32 (now - tr_last t) < 120 -> t' = t) /\
   T s' = T s /\ buf s' = buf s /\ blen s' = blen s /\
   framesSeen s' = framesSeen s /\ framesOK s' = framesOK s /\
   errs s' = errs s).
Proof.
  intros s t tg.
  assert (0 < 3)%nat as Hk by lia.
  assert (tr s !! 0%nat = Some t) as Ht by (vm_compute; reflexivity).
  assert (T s !! 0%nat = Some tg) as Htg by (vm_compute; reflexivity).
  exact (conj Hk (conj Ht (conj Htg (conj Trail0_ok
           (recorder_appends_current_position millis_1000 s 0 t tg
              Hk Ht Htg Trail0_ok))))).
Defined.

(** ** What the page reads from a trail *)

(** X13. From the hundredth sample on, the snapshot loop of [page] hands
    out exactly the last 100 samples, oldest first. *)
Theorem snapshot_of_full_trail ps :
  (100 <= length ps)%nat ->
  trail_snapshot (trail_puts ps Trail0) = drop (length ps - 100) ps /\
  length (trail_snapshot (trail_puts ps Trail0)) = 100%nat.
Proof.
  intros Hlen.
  destruct (trail_puts_history ps) as (Hok & Hn & Hhist).
  assert (trail_snapshot (trail_puts ps Trail0) = drop (length ps - 100) ps)
    as Hsnap.
  { rewrite trail_snapshot_full; [done | done |]. rewrite Hn.
    unfold TRAIL_LEN. lia. }
  split; [done |]. rewrite Hsnap, length_drop. lia.
Qed.

Lemma snapshot_of_full_trail_witness :
  let ps := (fun i => (i, i + 1000)) <$> seqZ 1 101 in
  (100 <= length ps)%nat /\
  (trail_snapshot (trail_puts ps Trail0) = drop (length ps - 100) ps /\
   length (trail_snapshot (trail_puts ps Trail0)) = 100%nat).
Proof.
  intros ps.
  assert (100 <= length ps)%nat as Hlen by (vm_compute; lia).
  exact (conj Hlen (snapshot_of_full_trail ps Hlen)).
Defined.

(** The History block reads the newest [min n 12] entries of a trail,
    oldest first. *)
Lemma history_Y_newest t :
  trail_ok t ->
  history_Y t
  = snd <$> drop (Z.to_nat (tr_n t) - 12) (trail_oldest_first t).
Proof.
  unfold trail_ok, TRAIL_LEN. intros (_ & _ & Hh & Hn).
  unfold history_Y, trail_oldest_first, TRAIL_LEN.
  set (show := if tr_n t <? 12 then tr_n t else 12).
  assert (0 <= show <= 12 /\ show <= tr_n t /\
          (Z.to_nat (tr_n t) - 12 = Z.to_nat (tr_n t - show))%nat)
    as (Hshow & Hle & Hd)
    by (unfold show; destruct (Z.ltb_spec (tr_n t) 12); lia).
  rewrite Hd.
  apply (list_eq_same_length _ _ (Z.to_nat show)).
  { rewrite length_fmap, length_drop, length_fmap, length_seqZ. lia. }
  { rewrite length_fmap, length_reverse, length_seqZ. done. }
  intros i a b Hi Ha Hb.
  rewrite list_lookup_fmap, reverse_lookup in Ha
    by (rewrite length_seqZ; lia).
  rewrite length_seqZ, lookup_seqZ_lt in Ha by lia.
  rewrite list_lookup_fmap, lookup_drop, list_lookup_fmap in Hb.
  rewrite lookup_seqZ_lt in Hb by lia.
  simpl in Ha, Hb. injection Ha as <-. injection Hb as <-.
  f_equal.
  rewrite Z.rem_mod_nonneg by lia.
  Z.div_mod_to_equations. lia.
Qed.

(** X14. The History block of [page] shows, at every fill level, the [Y]
    values of the newest twelve samples (or of all of them while there are
    fewer), oldest first. *)
Theorem history_block_shows_newest_samples ps :
  history_Y (trail_puts ps Trail0) = snd <$> drop (length ps - 12) ps.
Proof.
  destruct (trail_puts_history ps) as (Hok & Hn & Hhist).
  rewrite (history_Y_newest _ Hok), Hhist, Hn, drop_drop.
  unfold TRAIL_LEN. do 2 f_equal. lia.
Qed.

(** The cells of a trail that has not wrapped yet. *)
Lemma trail_puts_fresh ps :
  (length ps < 100)%nat ->
  tr_X (trail_puts ps Trail0) = (fst <$> ps) ++ replicate (100 - length ps) 0 /\
  tr_Y (trail_puts ps Trail0) = (snd <$> ps) ++ replicate (100 - length ps) 0 /\
  tr_head (trail_puts ps Trail0) = Z.of_nat (length ps) /\
  tr_n (trail_puts ps Trail0) = Z.of_nat (length ps).
Proof.
  induction ps as [| p ps IH] using rev_ind; intros Hlen; [done |].
  rewrite length_app in Hlen. simpl in Hlen.
  destruct IH as (HX & HY & Hh & Hn); [lia |].
  unfold trail_puts in *. rewrite foldl_snoc.
  set (t := foldl _ Trail0 ps) in *.
  unfold trail_put, TRAIL_LEN. simpl.
  rewrite HX, HY, Hh, Hn, Nat2Z.id, length_app, !fmap_app. simpl.
  replace (100 - length ps)%nat with (S (100 - (length ps + 1))) by lia.
  rewrite !replicate_S.
  rewrite !insert_app_r_alt by (rewrite length_fmap; lia).
  rewrite !length_fmap, Nat.sub_diag. simpl.
  rewrite <- !app_assoc. simpl.
  split; [done |]. split; [done |].
  rewrite Z.rem_small by lia.
  destruct (Z.ltb_spec (Z.of_nat (length ps)) 100); lia.
Qed.

(** X15. While a trail holds at most 50 samples, the snapshot loop of
    [page] hands out only never-written cells: as many [(0, 0)] pairs as
    there are samples, whatever the samples were. *)
Theorem snapshot_of_young_trail ps :
  (length ps <= 50)%nat ->
  trail_snapshot (trail_puts ps Trail0) = replicate (length ps) (0, 0).
Proof.
  intros Hlen.
  destruct (trail_puts_fresh ps) as (HX & HY & Hh & Hn); [lia |].
  unfold trail_snapshot, TRAIL_LEN. rewrite HX, HY, Hh, Hn.
  apply (list_eq_same_length _ _ (length ps)).
  { apply length_replicate. }
  { rewrite length_fmap, length_seqZ. lia. }
  intros i a b Hi Ha Hb.
  rewrite lookup_replicate_2 in Hb by done. injection Hb as <-.
  rewrite list_lookup_fmap, lookup_seqZ_lt in Ha by lia.
  simpl in Ha. injection Ha as <-.
  rewrite Z.rem_small by lia.
  unfold cell_at.
  rewrite !lookup_app_r by (rewrite length_fmap; lia).
  rewrite !lookup_replicate_2 by (rewrite length_fmap; lia).
  done.
Qed.

Lemma snapshot_of_young_trail_witness :
  let ps := (fun i => (i, i + 1000)) <$> seqZ 1 50 in
  (length ps <= 50)%nat /\
  trail_snapshot (trail_puts ps Trail0) = replicate (length ps) (0, 0).
Proof.
  intros ps.
  assert (length ps <= 50)%nat as Hlen by (vm_compute; lia).
  exact (conj Hlen (snapshot_of_young_trail ps Hlen)).
Defined.

(** ** The CSV stream *)

Lemma csv_ticks_printed ins : forall c,
  let due := due_ticks (lastTick c) ins in
  printed (foldl csv_tick c ins)
  = printed c
    ++ (if csvHeaderDone c then []
        else match due with [] => [] | _ :: _ => [Println_str CSV_HEADER] end)
    ++ csv_rows due.
Proof.
  induction ins as [| i ins IH]; intros c.
  - simpl. destruct (csvHeaderDone c); by rewrite app_nil_r.
  - cbv zeta. simpl foldl. simpl due_ticks. unfold csv_tick at 2.
    destruct (UI_MS <=? to_uint32 (fst i - lastTick c)).
    + rewrite IH. simpl. unfold csv_rows. rewrite fmap_cons, concat_cons.
      destruct (csvHeaderDone c); by rewrite <- ?app_assoc.
    + apply IH.
Qed.

Lemma due_ticks_sublist ins : forall lastT, due_ticks lastT ins `sublist_of` ins.
Proof.
  induction ins as [| i ins IH]; intros lastT; simpl; [constructor |].
  destruct (UI_MS <=? _); constructor; apply IH.
Qed.

Lemma csv_row_no_header now tt : Println_str CSV_HEADER ∉ csv_row now tt.
Proof.
  unfold csv_row. cbv zeta. rewrite !not_elem_of_cons.
  split_and!; try discriminate. apply not_elem_of_nil.
Qed.

Lemma csv_rows_no_header due : Println_str CSV_HEADER ∉ csv_rows due.
Proof.
  unfold csv_rows. induction due as [| i due IH]; [apply not_elem_of_nil |].
  rewrite fmap_cons, concat_cons, not_elem_of_app.
  split; [apply csv_row_no_header | done].
Qed.

(** X16. Whatever the clock readings and Target Tables at the successive
    ticks of [loop] are, what has been printed on [Serial] since start-up
    is either nothing, or the CSV header line followed by one 12-cell row
    for each tick that came at least [UI_MS] after the previous printed
    one, in order.  The header is printed exactly once, before the first
    row. *)
Theorem csv_stream_is_header_then_rows ins :
  let due := due_ticks 0 ins in
  printed (foldl csv_tick Csv0 ins)
  = match due with
    | [] => []
    | _ :: _ => Println_str CSV_HEADER :: csv_rows due
    end /\
  (Println_str CSV_HEADER ∉ csv_rows due) /\
  (due `sublist_of` ins).
Proof.
  intros due. split; [| split].
  - rewrite csv_ticks_printed. simpl. fold due.
    destruct due; [done |]. done.
  - apply csv_rows_no_header.
  - apply due_ticks_sublist.
Qed.

(** ** A stream of frames, delivered in pieces *)

Lemma same_tables_trans a b c : same_tables a b -> same_tables b c -> same_tables a c.
Proof.
  unfold same_tables. intros (-> & -> & -> & -> & -> & ->). done.
Qed.

Lemma accept_all_same millis_at frames : forall a b,
  same_tables a b ->
  same_tables (accept_all millis_at frames a) (accept_all millis_at frames b).
Proof.
  induction frames as [| f frames IH]; intros a b Hab; [done |].
  change (accept_all millis_at (f :: frames) ?x)
    with (accept_all millis_at frames
            (decode_frame millis_at f (bump_framesSeen x))).
  apply IH, decode_frame_tables.
  destruct Hab as (HT & Htr & Hs & Ha & He & Ht).
  unfold same_tables. simpl. by rewrite HT, Htr, Hs, Ha, He, Ht.
Qed.

(** Bytes that start at a frame boundary split into whole frames and an
    unfinished rest. *)
Lemma split_at_frames fs : forall l tail,
  l ++ tail = concat fs -> Forall valid_frame fs ->
  exists fs1 fs2 pre,
    fs = fs1 ++ fs2 /\ l = concat fs1 ++ pre /\ (length pre < 30)%nat /\
    pre ++ tail = concat fs2.
Proof.
  induction fs as [| f fs IH]; intros l tail Heq Hvalid.
  - apply app_eq_nil in Heq as [-> ->].
    exists [], [], []. split_and!; simpl; (done || lia).
  - destruct (decide (length l < 30)%nat) as [Hshort | Hlong].
    + exists [], (f :: fs), l. split_and!; (done || lia).
    + apply Forall_cons in Hvalid as [Hf Hvalid].
      destruct Hf as (Hlen & _).
      rewrite concat_cons in Heq.
      assert (l = f ++ drop 30 l) as Hl.
      { rewrite <- (take_drop 30 l) at 1. f_equal.
        apply (f_equal (take 30)) in Heq.
        rewrite take_app_le in Heq by lia.
        by rewrite take_app_length' in Heq by done. }
      assert (drop 30 l ++ tail = concat fs) as Heq'.
      { apply (f_equal (drop 30)) in Heq.
        rewrite drop_app_le in Heq by lia.
        by rewrite drop_app_length' in Heq by done. }
      destruct (IH _ _ Heq' Hvalid) as (fs1 & fs2 & pre & -> & Hd & Hpre & Htail).
      exists (f :: fs1), fs2, pre.
      split; [done |]. split; [| done].
      rewrite concat_cons, <- app_assoc, <- Hd. done.
Qed.

Lemma chunked_stream_invariant millis_at chunks : forall s pre fs,
  buf_ok s -> live s = pre -> (length pre < 30)%nat ->
  Forall valid_frame fs -> pre ++ concat chunks = concat fs ->
  Forall (fun c => (length c <= 99)%nat) chunks ->
  let m := do_acts millis_at (chunk_acts chunks) ([], s) in
  fst m = [] /\ same_tables (accept_all millis_at fs s) (snd m) /\
  live (snd m) = [] /\ buf_ok (snd m).
Proof.
  induction chunks as [| c chunks IH];
    intros s pre fs Hok Hlive Hpre Hvalid Heq Hsize.
  - simpl in Heq. rewrite app_nil_r in Heq.
    destruct fs as [| f fs].
    + simpl in Heq. rewrite Heq in Hlive. simpl. by rewrite Hlive.
    + apply Forall_cons in Hvalid as [(Hlen & _) _].
      apply (f_equal length) in Heq.
      rewrite concat_cons, length_app in Heq. lia.
  - apply Forall_cons in Hsize as [Hc Hsize].
    rewrite concat_cons, app_assoc in Heq.
    destruct (split_at_frames fs (pre ++ c) (concat chunks) Heq Hvalid)
      as (fs1 & fs2 & pre' & -> & Hsplit & Hpre' & Htail).
    apply Forall_app in Hvalid as [Hv1 Hv2].
    pose proof (live_length s Hok) as Hll. rewrite Hlive in Hll.
    destruct (pushBytes_fits c s Hok) as (Hq & Hl & _);
      [unfold BUF_SIZE; lia |].
    pose proof (pushBytes_buf_ok c s Hok) as Hok1.
    pose proof (pushBytes_tables c s) as Hsame1.
    assert (Forall is_byte c) as Hbytes.
    { destruct (valid_frames_concat (fs1 ++ fs2)) as [_ Hall];
        [by apply Forall_app |].
      rewrite <- Heq in Hall.
      apply Forall_app in Hall as [Hall _].
      by apply Forall_app in Hall as [_ Hall]. }
    rewrite Hlive, (fmap_to_uint8_bytes c Hbytes), Hsplit in Hl.
    set (s1 := snd (pushBytes c s)) in *.
    destruct (parseFrames_frames millis_at fs1 s1 pre' Hok1 Hl Hv1 Hpre')
      as [Hrun Hlive2].
    pose proof (parseFrames_buf_ok millis_at s1 Hok1) as Hok2.
    destruct (IH (parseFrames millis_at s1) pre' fs2 Hok2 Hlive2 Hpre' Hv2
                Htail Hsize) as (Hq' & Hsame' & Hlive' & Hok').
    assert (do_acts millis_at (chunk_acts (c :: chunks)) ([], s)
            = do_acts millis_at (chunk_acts chunks)
                ([], parseFrames millis_at s1)) as ->.
    { simpl. fold (do_acts millis_at (chunk_acts chunks)).
      f_equal. fold s1. by rewrite Hq. }
    split; [done |]. split; [| done].
    unfold accept_all. rewrite foldl_app.
    fold (accept_all millis_at fs1 s).
    fold (accept_all millis_at fs2 (accept_all millis_at fs1 s)).
    eapply same_tables_trans; [| exact Hsame'].
    apply accept_all_same. rewrite Hrun.
    by apply accept_all_tables.
Qed.

(** X17. A stream of valid frames sent back to back may reach the sketch
    cut into chunks at any points: as long as no chunk is longer than 99
    bytes and a pass runs after each intake, every frame of the stream is
    accepted, in stream order, none is counted as an error, no byte is
    left over in the receive queue or in the buffer.  [framesOK] and
    [framesSeen], started as 32-bit values, end as those values plus the
    number of frames, modulo 2^32. *)
Theorem chunked_stream_fully_decoded millis_at frames chunks s :
  buf_ok s -> blen s = 0 -> Forall valid_frame frames ->
  concat chunks = concat frames ->
  Forall (fun c => (length c <= 99)%nat) chunks ->
  let m := do_acts millis_at (chunk_acts chunks) ([], s) in
  fst m = [] /\
  same_tables (accept_all millis_at frames s) (snd m) /\
  blen (snd m) = 0 /\
  framesOK (snd m) = Nat.iter (length frames) incr_ulong (framesOK s) /\
  framesSeen (snd m) = Nat.iter (length frames) incr_ulong (framesSeen s) /\
  errs (snd m) = errs s /\
  (is_u32 (framesOK s) ->
   framesOK (snd m)
   = (framesOK s + Z.of_nat (length frames)) mod 4294967296) /\
  (is_u32 (framesSeen s) ->
   framesSeen (snd m)
   = (framesSeen s + Z.of_nat (length frames)) mod 4294967296).
Proof.
  intros Hok Hempty Hvalid Heq Hsize m.
  assert (live s = []) as Hlive by (unfold live; by rewrite Hempty).
  destruct (chunked_stream_invariant millis_at chunks s [] frames
              Hok Hlive ltac:(simpl; lia) Hvalid Heq Hsize)
    as (Hq & Hsame & Hlive' & Hok').
  fold m in Hq, Hsame, Hlive', Hok'.
  pose proof (live_length _ Hok') as Hl. rewrite Hlive' in Hl.
  destruct Hok' as [_ [Hlo _]].
  split; [done |]. split; [done |]. split; [simpl in Hl; lia |].
  assert (framesOK (snd m) = Nat.iter (length frames) incr_ulong (framesOK s) /\
          framesSeen (snd m)
          = Nat.iter (length frames) incr_ulong (framesSeen s) /\
          errs (snd m) = errs s) as (HA & HS & HE).
  { destruct Hsame as (_ & _ & -> & -> & -> & _).
    split; [apply accept_all_framesOK |].
    clear. revert s.
    induction frames as [| f frames IH]; intros s; [done |].
    change (accept_all millis_at (f :: frames) s)
      with (accept_all millis_at frames
              (decode_frame millis_at f (bump_framesSeen s))).
    destruct (IH (decode_frame millis_at f (bump_framesSeen s))) as [-> ->].
    simpl length. rewrite Nat.iter_succ_r. done. }
  split_and!; try done.
  - intros Hu. rewrite HA. by apply iter_incr_ulong.
  - intros Hu. rewrite HS. by apply iter_incr_ulong.
Qed.

Lemma chunked_stream_fully_decoded_witness :
  let frames := [frame_a; frame_b; frame_a; frame_b; frame_a; frame_b] in
  let stream := concat frames in
  let chunks := [take 7 stream; take 99 (drop 7 stream); [];
                 take 1 (drop 106 stream); drop 107 stream] in
  buf_ok init /\ blen init = 0 /\ Forall valid_frame frames /\
  concat chunks = concat frames /\
  Forall (fun c => (length c <= 99)%nat) chunks /\
  (let m := do_acts millis_1000 (chunk_acts chunks) ([], init) in
   fst m = [] /\
   same_tables (accept_all millis_1000 frames init) (snd m) /\
   blen (snd m) = 0 /\
   framesOK (snd m) = Nat.iter (length frames) incr_ulong (framesOK init) /\
   framesSeen (snd m) = Nat.iter (length frames) incr_ulong (framesSeen init) /\
   errs (snd m) = errs init /\
   (is_u32 (framesOK init) ->
    framesOK (snd m)
    = (framesOK init + Z.of_nat (length frames)) mod 4294967296) /\
   (is_u32 (framesSeen init) ->
    framesSeen (snd m)
    = (framesSeen init + Z.of_nat (length frames)) mod 4294967296)).
Proof.
  intros frames stream chunks.
  assert (buf_ok init) as Hok
    by (split; [reflexivity | split; vm_compute; discriminate]).
  assert (blen init = 0) as Hempty by reflexivity.
  assert (Forall valid_frame frames) as Hvalid.
  { unfold frames.
    repeat (apply Forall_cons_2;
            [first [exact valid_frame_a | exact valid_frame_b] |]).
    apply Forall_nil_2. }
  assert (concat chunks = concat frames) as Heq by (vm_compute; reflexivity).
  assert (Forall (fun c => (length c <= 99)%nat) chunks) as Hsize.
  { unfold chunks.
    repeat (apply Forall_cons_2; [vm_compute; lia |]). apply Forall_nil_2. }
  exact (conj Hok (conj Hempty (conj Hvalid (conj Heq (conj Hsize
           (chunked_stream_fully_decoded millis_1000 frames chunks init
              Hok Hempty Hvalid Heq Hsize)))))).
Defined.

(** ** The frame an iteration extracts *)

(** X18. Whenever the scan reports an offset, the 30 bytes copied out as the
    frame are bytes the buffer really holds ([h + 30 <= blen]), they begin
    with the header, and no earlier offset of the buffer holds the header:
    the synchronizer always takes the first frame candidate. *)
Theorem extracted_frame_is_first_candidate s :
  buf_ok s -> 30 <= blen s -> 0 <= find_hdr (buf s) (blen s) ->
  let h := find_hdr (buf s) (blen s) in
  let f := memcpy_frame (buf s) h in
  h + 30 <= blen s /\
  f = take 30 (drop (Z.to_nat h) (live s)) /\
  length f = 30%nat /\
  take 4 f = HDR /\
  (forall j, (j < Z.to_nat h)%nat -> take 4 (drop j (live s)) <> HDR).
Proof.
  intros Hok Hblen Hfound h f.
  destruct (find_hdr_bound (buf s) (blen s)) as [Hnone | Hrange]; [lia |].
  fold h in Hrange.
  pose proof (live_length s Hok) as Hll.
  assert (buf_ok s) as [Hlen [Hlo Hhi]] by done. unfold BUF_SIZE in Hhi.
  assert (f = take 30 (drop (Z.to_nat h) (live s))) as Hf.
  { unfold f, memcpy_frame, live.
    rewrite (take_drop_commute (take _ _)), take_take, take_drop_commute.
    do 2 f_equal. lia. }
  assert (hdr_at (buf s) h = true /\
          forall j, 0 <= j < h -> hdr_at (buf s) j = false) as [Hhit Hbefore].
  { unfold h, find_hdr in *.
    destruct (scan_hdr_spec (buf s) (Z.to_nat (blen s - 30 + 1)) 0)
      as [[Hn _] | (_ & Hh & Hb)]; [lia | done]. }
  split; [lia |]. split; [done |]. split.
  { rewrite Hf, length_take, length_drop. lia. }
  split.
  { apply hdr_at_live in Hhit; [| done | lia | lia].
    rewrite Hf, take_take. exact Hhit. }
  intros j Hj Hhdr.
  rewrite <- (Nat2Z.id j) in Hhdr.
  apply (hdr_at_live s (Z.of_nat j)) in Hhdr; [| done | lia | lia].
  rewrite Hbefore in Hhdr by lia. done.
Qed.

Lemma extracted_frame_is_first_candidate_witness :
  let s := loaded ([1; 2; 3; 4; 5] ++ frame_a ++ frame_b) in
  buf_ok s /\ 30 <= blen s /\ 0 <= find_hdr (buf s) (blen s) /\
  (let h := find_hdr (buf s) (blen s) in
   let f := memcpy_frame (buf s) h in
   h + 30 <= blen s /\
   f = take 30 (drop (Z.to_nat h) (live s)) /\
   length f = 30%nat /\
   take 4 f = HDR /\
   (forall j, (j < Z.to_nat h)%nat -> take 4 (drop j (live s)) <> HDR)).
Proof.
  intros s.
  assert (buf_ok s) as Hok
    by (split; [reflexivity | split; vm_compute; discriminate]).
  assert (30 <= blen s) as Hblen by (vm_compute; discriminate).
  assert (0 <= find_hdr (buf s) (blen s)) as Hfound
    by (vm_compute; discriminate).
  exact (conj Hok (conj Hblen (conj Hfound
           (extracted_frame_is_first_candidate s Hok Hblen Hfound)))).
Defined.
